(** * The analysis pipeline of the Perplexity Analyzer

    A shallow embedding of [utils/perplexityUtils.ts] and
    [utils/analysisUtils.ts], of the route [app/api/perplexity/route.ts]
    and of the handlers of [components/tabs/UploadTab.tsx], and the
    properties of [analyzeFiles], [calculatePerplexity] and their callers.

    Conventions of the embedding.
    - A JavaScript number is an exact rational ([Q]); [NaN] and [undefined]
      are added where the code can produce them.  The rounding of doubles
      is not modelled, so a statement for all inputs that rests on a sum,
      a product or a quotient is a statement in exact arithmetic;
      comparisons, [floor] and [ceil] are exact on doubles as they are
      here.  Every concrete evaluation uses values on which double
      arithmetic is exact.
    - Cell values of a parsed row are [value]s; numeric cells are integers,
      printed by [toString] with all their decimal digits (as JavaScript
      does below 1e21).
    - Strings are byte strings; [toLowerCase] lower-cases the ASCII letters
      only, which is what JavaScript does on ASCII texts: what rests on it
      is stated for ASCII texts.
    - The [perplexity] field of a backend answer is a number or absent;
      other JSON values in that field are outside the model.
    - lodash and the built-ins follow their documented behaviour.
    - [fetch], [Math.random], [console.error] and the [onApiError] callback
      act on a [World]: the backend and the random source are oracles, the
      log and the calls of the callback are recorded in a trace. *)

From Stdlib Require Import QArith Qround Qabs Ascii Lqa.
From stdpp Require Import gmap strings list fin_maps pretty.

Local Open Scope Z_scope.

(** ** JavaScript values and built-ins *)

Module JS.

(** What a JavaScript expression can raise. *)
Inductive exn :=
  | TypeError (msg : string)
  | SyntaxError (msg : string)
  | Error (msg : string).

(** The completion of an expression: a value or a thrown exception. *)
Inductive Result (A : Type) :=
  | Returns (a : A)
  | Throws (e : exn).
Arguments Returns {A} a.
Arguments Throws {A} e.

#[global] Instance Result_ret : MRet Result := λ A a, Returns a.
#[global] Instance Result_bind : MBind Result := λ A B f m,
  match m with
  | Returns a => f a
  | Throws e => Throws e
  end.

(** A cell of a parsed row: [row.id], [row.text]. *)
Inductive value :=
  | VUndefined
  | VNull
  | VBool (b : bool)
  | VNum (n : Z)
  | VStr (s : string).

#[global] Instance value_eq_dec : EqDecision value.
Proof. solve_decision. Defined.

(** [number]: a finite number or [NaN]. *)
Inductive number :=
  | NaN
  | Num (q : Q).

(** Truthiness, as tested by [x ? a : b], [x || d] and [if (x)]. *)
Class Truthy (A : Type) := truthy : A → bool.

#[global] Instance truthy_nat : Truthy nat := λ n,
  match n with O => false | S _ => true end.
#[global] Instance truthy_Q : Truthy Q := λ q, negb (Qeq_bool q 0).
#[global] Instance truthy_string : Truthy string := λ s,
  match s with EmptyString => false | String _ _ => true end.
#[global] Instance truthy_value : Truthy value := λ v,
  match v with
  | VUndefined | VNull => false
  | VBool b => b
  | VNum n => negb (n =? 0)
  | VStr s => truthy s
  end.

(** [x || d] where [x] may be [undefined] ([None]). *)
Definition or_else {A} `{Truthy A} (x : option A) (d : A) : A :=
  match x with
  | Some a => if truthy a then a else d
  | None => d
  end.

(** [v.toString()]: a [TypeError] on [undefined] and [null]; an integer is
    printed with all its decimal digits. *)
Definition toString (v : value) : Result string :=
  match v with
  | VUndefined => Throws (TypeError "Cannot read properties of undefined (reading 'toString')")
  | VNull => Throws (TypeError "Cannot read properties of null (reading 'toString')")
  | VBool true => Returns "true"%string
  | VBool false => Returns "false"%string
  | VNum n => Returns (pretty n)
  | VStr s => Returns s
  end.

(** [v?.toString()]: [undefined] ([None]) on [undefined] and [null]. *)
Definition toString_opt (v : value) : Result (option string) :=
  match v with
  | VUndefined | VNull => Returns None
  | _ => s ← toString v; Returns (Some s)
  end.

(** [s.split(sep)] for a one-character separator. *)
Fixpoint split (sep : ascii) (s : string) : list string :=
  match s with
  | EmptyString => [EmptyString]
  | String c s' =>
      if Ascii.eqb c sep then EmptyString :: split sep s'
      else match split sep s' with
           | [] => [String c EmptyString]
           | w :: ws => String c w :: ws
           end
  end.

Definition lower_ascii (c : ascii) : ascii :=
  let n := nat_of_ascii c in
  if ((65 <=? n) && (n <=? 90))%nat then ascii_of_nat (n + 32) else c.

(** [s.toLowerCase()], on ASCII texts: the letters A-Z are lower-cased,
    every other byte is kept. *)
Fixpoint toLowerCase (s : string) : string :=
  match s with
  | EmptyString => EmptyString
  | String c s' => String (lower_ascii c) (toLowerCase s')
  end.

(** The texts on which [toLowerCase] above is that of JavaScript: every
    character is an ASCII character. *)
Fixpoint ascii_text (s : string) : bool :=
  match s with
  | EmptyString => true
  | String c s' => (nat_of_ascii c <? 128)%nat && ascii_text s'
  end.

(** [new Set(l).size]. *)
Definition Set_size (l : list string) : nat :=
  size (list_to_set (C:=gset string) l).

(** [Math.floor], [Math.ceil] on finite numbers. *)
Definition floor (q : Q) : Z := Qfloor q.
Definition ceil (q : Q) : Z := Qceiling q.

(** [x.toFixed(2)]: the text ["NaN"], or the decimal with two fraction
    digits nearest to [x] (on a tie the one larger in magnitude), kept as
    its number of hundredths. The exact value is rounded, not the double
    that stands for it. *)
Inductive fixed2 :=
  | FixedNaN
  | Fixed (hundredths : Z).

Definition toFixed2 (x : number) : fixed2 :=
  match x with
  | NaN => FixedNaN
  | Num q =>
      let n := Qfloor (Qabs q * 100 + (1 # 2))%Q in
      Fixed (if Qle_bool 0 q then n else - n)
  end.

(** [parseFloat] on the output of [toFixed]. *)
Definition parseFloat (s : fixed2) : number :=
  match s with
  | FixedNaN => NaN
  | Fixed h => Num (h # 100)
  end.

Definition num_of_nat (n : nat) : Q := inject_Z (Z.of_nat n).

End JS.
Export JS.

(** ** lodash *)

Module Lodash.

(** [baseExtremum]: the first element whose computed key beats the key of
    every earlier candidate; elements whose key is [undefined] are skipped. *)
Fixpoint baseExtremum_go {A B} (iteratee : A → option B) (comparator : B → B → bool)
    (computed : B) (result : A) (array : list A) : A :=
  match array with
  | [] => result
  | value :: rest =>
      match iteratee value with
      | Some current =>
          if comparator current computed
          then baseExtremum_go iteratee comparator current value rest
          else baseExtremum_go iteratee comparator computed result rest
      | None => baseExtremum_go iteratee comparator computed result rest
      end
  end.

Fixpoint baseExtremum {A B} (iteratee : A → option B) (comparator : B → B → bool)
    (array : list A) : option A :=
  match array with
  | [] => None
  | value :: rest =>
      match iteratee value with
      | Some current => Some (baseExtremum_go iteratee comparator current value rest)
      | None => baseExtremum iteratee comparator rest
      end
  end.

Definition Qltb (x y : Q) : bool := negb (Qle_bool y x).

Definition baseLt_nat (x y : nat) : bool := (x <? y)%nat.
Definition baseGt_nat (x y : nat) : bool := (y <? x)%nat.
Definition baseLt (x y : Q) : bool := Qltb x y.
Definition baseGt (x y : Q) : bool := Qltb y x.

(** [_.max], [_.min] of an array of word counts. *)
Definition max_nat (l : list nat) : option nat := baseExtremum Some baseGt_nat l.
Definition min_nat (l : list nat) : option nat := baseExtremum Some baseLt_nat l.

(** [_.max], [_.min] of an array of scores, each a number or [undefined]. *)
Definition max (l : list (option Q)) : option Q :=
  mjoin (baseExtremum id baseGt l).
Definition min (l : list (option Q)) : option Q :=
  mjoin (baseExtremum id baseLt l).

(** [_.minBy(array, iteratee)]. *)
Definition minBy {A} (array : list A) (iteratee : A → option Q) : option A :=
  baseExtremum iteratee baseLt array.

(** [baseSum]: [undefined] entries are skipped; [undefined] when there is
    nothing to add. *)
Definition baseSum (l : list (option Q)) : option Q :=
  foldl (λ result current,
           match current, result with
           | None, _ => result
           | Some c, None => Some c
           | Some c, Some r => Some (r + c)%Q
           end) None l.

(** [_.mean]: [NaN] on the empty array, else [baseSum / length]
    ([undefined / n] is [NaN]). *)
Definition mean (l : list (option Q)) : number :=
  match l with
  | [] => NaN
  | _ =>
      match baseSum l with
      | None => NaN
      | Some s => Num (s / num_of_nat (length l))%Q
      end
  end.

(** [baseUniq]: first occurrences, in order. *)
Fixpoint baseUniq {A} `{EqDecision A} (seen : list A) (array : list A) : list A :=
  match array with
  | [] => []
  | x :: rest =>
      if decide (x ∈ seen) then baseUniq seen rest
      else x :: baseUniq (x :: seen) rest
  end.

Definition uniq {A} `{EqDecision A} (array : list A) : list A := baseUniq [] array.

(** [_.union(...arrays)]. *)
Definition union {A} `{EqDecision A} (arrays : list (list A)) : list A :=
  uniq (concat arrays).

(** [_.intersection(...arrays)]: the distinct values of the first array
    that every other array includes, in the order of the first array. *)
Definition intersection {A} `{EqDecision A} (arrays : list (list A)) : list A :=
  match arrays with
  | [] => []
  | first :: others =>
      uniq (filter (λ x, Forall (λ other, x ∈ other) others) first)
  end.

(** The aggregator of [_.countBy]: [++result[key]] when the object has the
    key, [result[key] = 1] otherwise. *)
Definition countBy_step (result : gmap string nat) (key : string) : gmap string nat :=
  match result !! key with
  | Some n => <[key := S n]> result
  | None => <[key := 1%nat]> result
  end.

(** [_.countBy(array)]: the object mapping each value to its number of
    occurrences. *)
Definition countBy (array : list string) : gmap string nat :=
  foldl countBy_step ∅ array.

(** [_.isEqual] on two such objects. *)
Definition isEqual (object other : gmap string nat) : bool :=
  bool_decide (object = other).

(** [baseRange]: [length] values from [start] in steps of [step]. *)
Fixpoint baseRange_go (length : nat) (start step : Q) : list Q :=
  match length with
  | O => []
  | S n => start :: baseRange_go n (start + step)%Q step
  end.

(** [_.range(start, end, step)] with all three arguments given. *)
Definition range (start end_ step : Q) : list Q :=
  let length := Z.max (ceil ((end_ - start) / or_else (Some step) 1)%Q) 0 in
  baseRange_go (Z.to_nat length) start step.

End Lodash.

(** ** types/types.ts *)

(** A parsed row; only its [id] and [text] cells are read. *)
Record Row := {
  row_id : value;
  row_text : value;
}.

(** [FileData]; the analysis reads [name] and [data]. *)
Record FileData := {
  name : string;
  data : list Row;
}.

Record FileStats := {
  stats_name : string;
  rowCount : nat;
  avgWordCount : number;
  maxWordCount : nat;
  minWordCount : nat;
}.

Record ComparisonRow := {
  cmp_id : value;
  file1Text : string;
  file2Text : string;
  cmp_wordsMatch : bool;
  cmp_textsDifferent : bool;
}.

Record FileComparison := {
  file1Name : string;
  file2Name : string;
  cmp_data : list ComparisonRow;
  differentTexts : nat;
  sameWords : nat;
}.

(** An entry of [PerplexityScore.scores]; [perplexity] is what
    [calculatePerplexity] resolved to, a number or [undefined]. *)
Record Score := {
  score_id : value;
  score_text : string;
  perplexity : option Q;
}.

Record Bucket := {
  bucket : Q;
  count : nat;
}.

Record PerplexityScore := {
  score_name : string;
  avgPerplexity : number;
  scores : list Score;
  distribution_of : list Bucket;
}.

Record BestText := {
  best_id : value;
  best_text : string;
  best_perplexity : option Q;
  source : string;
}.

Record AnalysisResult := {
  r_fileStats : list FileStats;
  r_comparison : option FileComparison;
  r_commonIds : nat;
  r_totalUniqueIds : nat;
  r_perplexityScores : list PerplexityScore;
  r_bestTexts : list BestText;
}.

(** ** The environment of an analysis run *)

Module Env.

(** The body of a response, as [response.json()] and the read of
    [data.perplexity] see it. *)
Inductive body :=
  | NotJson                               (* [response.json()] rejects *)
  | JsonNull                              (* parses to [null] *)
  | JsonData (perplexity : option Q).     (* any other JSON value, whose
                                             [perplexity] field is a number
                                             or absent *)

(** What one [fetch] of the scoring endpoint comes to. *)
Inductive fetch_outcome :=
  | FetchRejects
  | Response (ok : bool) (statusText : string) (payload : body).

Inductive event :=
  | ConsoleError
  | ApiErrorNotified.

(** The backend answers the n-th request for a text; [Math.random] returns
    its n-th draw; [trace] records [console.error] and the calls of the
    [onApiError] callback. *)
Record World := {
  backend : string → nat → fetch_outcome;
  requests : nat;
  random : nat → Q;
  draws : nat;
  trace : list event;
}.

(** Effectful code: it reads and advances the world and returns or throws. *)
Definition M (A : Type) : Type := World → Result A * World.

#[global] Instance M_ret : MRet M := λ A a w, (Returns a, w).
#[global] Instance M_bind : MBind M := λ A B f m w,
  match m w with
  | (Returns a, w') => f a w'
  | (Throws e, w') => (Throws e, w')
  end.

Definition lift {A} (r : Result A) : M A := λ w, (r, w).

Definition throw {A} (e : exn) : M A := λ w, (Throws e, w).

(** [try { body } catch (error) { handler }]. *)
Definition try_catch {A} (body : M A) (handler : exn → M A) : M A := λ w,
  match body w with
  | (Returns a, w') => (Returns a, w')
  | (Throws e, w') => handler e w'
  end.

Definition emit (e : event) : M unit := λ w,
  (Returns tt,
   {| backend := backend w; requests := requests w; random := random w;
      draws := draws w; trace := trace w ++ [e] |}).

(** [Math.random()]. *)
Definition Math_random : M Q := λ w,
  (Returns (random w (draws w)),
   {| backend := backend w; requests := requests w; random := random w;
      draws := S (draws w); trace := trace w |}).

(** [await fetch(endpoint, { body: JSON.stringify({ text }) })]. *)
Definition fetch (text : string) : M (bool * string * body) := λ w,
  let w' := {| backend := backend w; requests := S (requests w);
               random := random w; draws := draws w; trace := trace w |} in
  match backend w text (requests w) with
  | FetchRejects => (Throws (TypeError "Failed to fetch"), w')
  | Response ok statusText payload => (Returns (ok, statusText, payload), w')
  end.

(** [await response.json()]. *)
Definition json (payload : body) : M body :=
  match payload with
  | NotJson => throw (SyntaxError "Unexpected token")
  | _ => mret payload
  end.

(** [data.perplexity]. *)
Definition get_perplexity (data : body) : M (option Q) :=
  match data with
  | JsonData p => mret p
  | _ => throw (TypeError "Cannot read properties of null (reading 'perplexity')")
  end.

(** The draws of [Math.random] lie in [0, 1). *)
Definition random_ok (w : World) : Prop :=
  ∀ n, (0 <= random w n)%Q ∧ (random w n < 1)%Q.

End Env.
Export Env.

(** ** utils/perplexityUtils.ts *)

(** [entropy]: the share of distinct lower-cased words among the words. *)
Definition entropy (text : string) : Q :=
  let wordCount := length (split " " text) in
  let uniqueWords := Set_size (split " " (toLowerCase text)) in
  (num_of_nat uniqueWords / num_of_nat wordCount)%Q.

(** The branch [if (!useRemoteApi)]: the dummy score from the text's
    characteristics. *)
Definition dummyPerplexity (text : string) : M (option Q) :=
  u ← Math_random;
  let score := (5 + 25 * (1 - entropy text) * u)%Q in
  mret (Some score).

(** [calculatePerplexity(text, useRemoteApi, onApiError)]; [onApiError]
    tells whether the optional callback was passed; the callback is the
    caller's, it is taken to return, and a call of it is recorded in the
    trace.  The call [calculatePerplexity(text, false)] in the handler
    enters the first branch at once, which is [dummyPerplexity]. *)
Definition calculatePerplexity (text : string) (useRemoteApi : bool)
    (onApiError : bool) : M (option Q) :=
  if negb useRemoteApi then dummyPerplexity text
  else
    try_catch
      ('(ok, statusText, payload) ← fetch text;
       if negb ok then throw (Error ("API error: " +:+ statusText))
       else
         data ← json payload;
         get_perplexity data)
      (λ error,
         _ ← emit ConsoleError;
         _ ← (if onApiError then emit ApiErrorNotified else mret tt);
         dummyPerplexity text).

(** ** utils/analysisUtils.ts *)

(** The callback of [file.data.map]:
    [row.text ? row.text.toString().split(' ').length : 0] *)
Definition textLength (row : Row) : Result nat :=
  if truthy (row_text row)
  then s ← toString (row_text row); mret (length (split " " s))
  else mret 0%nat.

Definition textLengths (file : FileData) : Result (list nat) :=
  mapM textLength (data file).

(** The callback of [selectedFiles.map] that builds one [FileStats]. *)
Definition fileStat (file : FileData) : Result FileStats :=
  textLengths ← textLengths file;
  mret {| stats_name := name file;
          rowCount := length (data file);
          avgWordCount :=
            parseFloat (toFixed2 (Lodash.mean (map (λ n, Some (num_of_nat n)) textLengths)));
          maxWordCount := or_else (Lodash.max_nat textLengths) 0%nat;
          minWordCount := or_else (Lodash.min_nat textLengths) 0%nat |}.

Definition fileStats (selectedFiles : list FileData) : Result (list FileStats) :=
  mapM fileStat selectedFiles.

(** [row.text?.toString() || ''] *)
Definition textOf (row : Row) : Result string :=
  s ← toString_opt (row_text row); mret (or_else s ""%string).

Definition wordsMatch (text1 text2 : string) : bool :=
  Lodash.isEqual (Lodash.countBy (split " " text1)) (Lodash.countBy (split " " text2)).

Definition textsDifferent (text1 text2 : string) : bool :=
  negb (bool_decide (text1 = text2)).

(** [file.data.find(row => row.id === id)] *)
Definition findRow (file : FileData) (id : value) : option Row :=
  List.find (λ row, bool_decide (row_id row = id)) (data file).

(** One turn of the loop over the common ids: the row pushed, if any. *)
Definition compareId (file1 file2 : FileData) (id : value) : Result (option ComparisonRow) :=
  match findRow file1 id, findRow file2 id with
  | Some file1Row, Some file2Row =>
      text1 ← textOf file1Row;
      text2 ← textOf file2Row;
      mret (Some {| cmp_id := id; file1Text := text1; file2Text := text2;
                    cmp_wordsMatch := wordsMatch text1 text2;
                    cmp_textsDifferent := textsDifferent text1 text2 |})
  | _, _ => mret None
  end.

Definition comparison (selectedFiles : list FileData) : Result (option FileComparison) :=
  match selectedFiles with
  | file1 :: file2 :: _ =>
      let file1Ids := map row_id (data file1) in
      let file2Ids := map row_id (data file2) in
      let commonIds := Lodash.intersection [file1Ids; file2Ids] in
      pushed ← mapM (compareId file1 file2) commonIds;
      let comparisonData := omap id pushed in
      mret (Some {| file1Name := name file1;
                    file2Name := name file2;
                    cmp_data := comparisonData;
                    differentTexts := length (filter (λ item, cmp_textsDifferent item = true) comparisonData);
                    sameWords := length (filter (λ item, cmp_wordsMatch item = true) comparisonData) |})
  | _ => mret None
  end.

(** [p >= bucket && p < bucket + bucketSize]; false on [undefined]. *)
Definition inBucket (bucket bucketSize : Q) (p : option Q) : bool :=
  match p with
  | Some p => Qle_bool bucket p && Lodash.Qltb p (bucket + bucketSize)
  | None => false
  end.

(** The histogram of one file's scores. The bucket size and the bucket
    starts are computed in exact arithmetic. *)
Definition distribution (perplexityValues : list (option Q)) : list Bucket :=
  let min := floor (or_else (Lodash.min perplexityValues) 0%Q) in
  let max := ceil (or_else (Lodash.max perplexityValues) 30%Q) in
  let range := max - min in
  let bucketSize := (inject_Z range / 10)%Q in
  let buckets := Lodash.range (inject_Z min) (inject_Z max + bucketSize)%Q bucketSize in
  map (λ bucket,
         {| bucket := bucket;
            count := length (filter (λ p, inBucket bucket bucketSize p = true) perplexityValues) |})
      buckets.

Definition scoreRow (useRemoteApi onApiError : bool) (row : Row) : M Score :=
  text ← lift (textOf row);
  perplexity ← calculatePerplexity text useRemoteApi onApiError;
  mret {| score_id := row_id row; score_text := text; perplexity := perplexity |}.

Definition scoreFile (useRemoteApi onApiError : bool) (file : FileData) : M PerplexityScore :=
  scores ← mapM (scoreRow useRemoteApi onApiError) (data file);
  let avgPerplexity := Lodash.mean (map perplexity scores) in
  let perplexityValues := map perplexity scores in
  mret {| score_name := name file;
          avgPerplexity := avgPerplexity;
          scores := scores;
          distribution_of := distribution perplexityValues |}.

(** The scoring callbacks run one after the other, each to its end; which
    of several pending calls takes which draw is left to the [random]
    oracle of the world. *)
Definition perplexityScores (useRemoteApi onApiError : bool)
    (selectedFiles : list FileData) : M (list PerplexityScore) :=
  mapM (scoreFile useRemoteApi onApiError) selectedFiles.

Definition allScores (perplexityScores : list PerplexityScore) : list BestText :=
  concat (map (λ file,
                 map (λ score, {| best_id := score_id score;
                                  best_text := score_text score;
                                  best_perplexity := perplexity score;
                                  source := score_name file |})
                     (scores file))
              perplexityScores).

(** The callback of [uniqueIds.map]: the best score of one id. *)
Definition bestFor (allScores : list BestText) (id : value) : option BestText :=
  let scoresForId := filter (λ score, best_id score = id) allScores in
  let bestScore := Lodash.minBy scoresForId best_perplexity in
  bestScore.

(** [uniqueIds.map(...).filter(Boolean)] *)
Definition bestTexts (perplexityScores : list PerplexityScore) : list BestText :=
  let allScores := allScores perplexityScores in
  let uniqueIds := Lodash.uniq (map best_id allScores) in
  omap (bestFor allScores) uniqueIds.

(** [selectedFiles.map(file => file.data.map(row => row.id.toString()))] *)
Definition allIds (selectedFiles : list FileData) : Result (list (list string)) :=
  mapM (λ file, mapM (λ row, toString (row_id row)) (data file)) selectedFiles.

Definition analyzeFiles (selectedFiles : list FileData) (useRemoteApi onApiError : bool)
    : M AnalysisResult :=
  fileStats ← lift (fileStats selectedFiles);
  comparison ← lift (comparison selectedFiles);
  perplexityScores ← perplexityScores useRemoteApi onApiError selectedFiles;
  let bestTexts := bestTexts perplexityScores in
  allIds ← lift (allIds selectedFiles);
  let commonIds := Lodash.intersection allIds in
  let totalUniqueIds := length (Lodash.union allIds) in
  mret {| r_fileStats := fileStats;
          r_comparison := comparison;
          r_commonIds := length commonIds;
          r_totalUniqueIds := totalUniqueIds;
          r_perplexityScores := perplexityScores;
          r_bestTexts := bestTexts |}.

(** ** The vocabulary of the specification *)

Module Spec.

Definition is_whitespace (c : ascii) : bool :=
  bool_decide (c ∈ [" "; "009"; "010"; "011"; "012"; "013"]%char).

(** The pieces of a text between whitespace characters. *)
Fixpoint whitespace_split (s : string) : list string :=
  match s with
  | EmptyString => [EmptyString]
  | String c s' =>
      if is_whitespace c then EmptyString :: whitespace_split s'
      else match whitespace_split s' with
           | [] => [String c EmptyString]
           | w :: ws => String c w :: ws
           end
  end.

(** Whitespace-split tokens: a run of whitespace separates two tokens and
    yields no token of its own. *)
Definition whitespace_tokens (s : string) : list string :=
  filter (λ w, w ≠ EmptyString) (whitespace_split s).

(** The number of single space characters of a text. *)
Fixpoint spaces (s : string) : nat :=
  match s with
  | EmptyString => 0
  | String c s' => (if Ascii.eqb c " " then 1 else 0) + spaces s'
  end.

#[global] Instance value_countable : Countable value.
Proof.
  refine (inj_countable'
    (λ v, match v with
          | VUndefined => inl (inl (inl (inl ())))
          | VNull => inl (inl (inl (inr ())))
          | VBool b => inl (inl (inr b))
          | VNum n => inl (inr n)
          | VStr s => inr s
          end)
    (λ x, match x with
          | inl (inl (inl (inl ()))) => VUndefined
          | inl (inl (inl (inr ()))) => VNull
          | inl (inl (inr b)) => VBool b
          | inl (inr n) => VNum n
          | inr s => VStr s
          end) _).
  by intros [].
Defined.

(** The id set of a dataset, ids as found in its records. *)
Definition idSet (file : FileData) : gset value :=
  list_to_set (map row_id (data file)).

(** The id set of a dataset, ids in their string form [id.toString()]. *)
Definition idStrings (file : FileData) : gset string :=
  list_to_set (omap (λ row, match toString (row_id row) with
                            | Returns s => Some s
                            | Throws _ => None
                            end) (data file)).

(** The intersection of a family of sets (empty for the empty family). *)
Definition intersection_all {K} `{Countable K} (sets : list (gset K)) : gset K :=
  match sets with
  | [] => ∅
  | s :: rest => foldr (∩) s rest
  end.


(** The exception is the [TypeError] of a [toString] on a missing value. *)
Definition thrown_by_toString {A} (r : Result A) : Prop :=
  ∃ msg v, r = Throws (TypeError msg) ∧ toString v = Throws (TypeError msg).

(** The remote backend fails: a network error, a non-2xx response, or a
    success response whose body has no numeric [perplexity]. *)
Definition remote_failure (o : fetch_outcome) : Prop :=
  match o with
  | FetchRejects => True
  | Response ok _ payload => ok = false ∨ ∀ q, payload ≠ JsonData (Some q)
  end.

(** The failures that raise inside the [try] block. *)
Definition raises_in_try (o : fetch_outcome) : Prop :=
  match o with
  | FetchRejects => True
  | Response ok _ payload => ok = false ∨ payload = NotJson ∨ payload = JsonNull
  end.

(** The world in which no request gets through and every draw is [u]. *)
Definition offline (u : Q) : World :=
  {| backend := λ _ _, FetchRejects; requests := 0; random := λ _, u;
     draws := 0; trace := [] |}.

(** The world whose backend answers every request with [o] and whose
    every draw is [u]. *)
Definition answering (o : fetch_outcome) (u : Q) : World :=
  {| backend := λ _ _, o; requests := 0; random := λ _, u;
     draws := 0; trace := [] |}.

(** A score of a report as the best-text selection records it:
    [{ ...score, source: file.name }]. *)
Definition withSource (report : PerplexityScore) (score : Score) : BestText :=
  {| best_id := score_id score; best_text := score_text score;
     best_perplexity := perplexity score; source := score_name report |}.

(** The sum of the bucket counts of a histogram. *)
Definition totalCount (d : list Bucket) : nat := sum_list (map count d).

End Spec.
Export Spec.

(** ** app/api/perplexity/route.ts *)

Module Route.

(** The body of the request, as [request.json()] and [body.text] see it. *)
Inductive request_body :=
  | ReqNotJson                      (* [request.json()] rejects *)
  | ReqNull                         (* parses to [null] *)
  | ReqData (text : value).         (* any other JSON value, with its [text]
                                       field ([undefined] if it has none) *)

(** What the fetch of the Python API comes to. *)
Inductive python_outcome :=
  | PyRejects (msg : string)
  | PyResponse (status : nat) (payload : body).

(** [response.ok]: the status is in the range 200-299. *)
Definition status_ok (status : nat) : bool :=
  ((200 <=? status) && (status <=? 299))%nat.

(** The JSON a [NextResponse.json] carries: [{ perplexity }], where an
    [undefined] perplexity leaves the object empty, or [{ error }]. *)
Inductive response_json :=
  | PerplexityJson (perplexity : option Q)
  | ErrorJson (error : string).

Record NextResponse := {
  res_json : response_json;
  res_status : nat;
}.

Inductive route_event :=
  | PythonCalled (text : value)
  | ErrorLogged.

(** The handler's effects: it returns or throws, and leaves a log of its
    calls of the Python API and of [console.error]. *)
Definition W (A : Type) : Type := Result A * list route_event.

#[global] Instance W_ret : MRet W := λ A a, (Returns a, []).
#[global] Instance W_bind : MBind W := λ A B f m,
  match m with
  | (Returns a, log) => let '(r, log') := f a in (r, log ++ log')
  | (Throws e, log) => (Throws e, log)
  end.

Definition W_throw {A} (e : exn) : W A := (Throws e, []).

Definition W_catch {A} (body : W A) (handler : exn → W A) : W A :=
  match body with
  | (Returns a, log) => (Returns a, log)
  | (Throws e, log) => let '(r, log') := handler e in (r, log ++ log')
  end.

(** [error.message] *)
Definition message (e : exn) : string :=
  match e with
  | TypeError msg | SyntaxError msg | Error msg => msg
  end.

(** [await request.json()] *)
Definition request_json (request : request_body) : W request_body :=
  match request with
  | ReqNotJson => W_throw (SyntaxError "Unexpected end of JSON input")
  | _ => mret request
  end.

(** [body.text] *)
Definition body_text (body : request_body) : W value :=
  match body with
  | ReqData text => mret text
  | _ => W_throw (TypeError "Cannot read properties of null (reading 'text')")
  end.

(** [await fetch(PYTHON_API_URL, { body: JSON.stringify({ text }) })] *)
Definition fetch_python (python : value → python_outcome) (text : value)
    : W (nat * body) :=
  match python text with
  | PyRejects msg => (Throws (TypeError msg), [PythonCalled text])
  | PyResponse status payload => (Returns (status, payload), [PythonCalled text])
  end.

(** [await response.json()] *)
Definition python_json (payload : body) : W body :=
  match payload with
  | NotJson => W_throw (SyntaxError "Unexpected token")
  | _ => mret payload
  end.

(** [data.perplexity] *)
Definition python_perplexity (data : body) : W (option Q) :=
  match data with
  | JsonData p => mret p
  | _ => W_throw (TypeError "Cannot read properties of null (reading 'perplexity')")
  end.

(** [export async function POST(request)] *)
Definition POST (request : request_body) (python : value → python_outcome)
    : W NextResponse :=
  W_catch
    (body ← request_json request;
     text ← body_text body;
     if negb (truthy text)
     then mret {| res_json := ErrorJson "Text is required"; res_status := 400 |}
     else
       '(status, payload) ← fetch_python python text;
       if negb (status_ok status)
       then W_throw (Error ("Python API responded with status: " +:+ pretty status))
       else
         data ← python_json payload;
         perplexity ← python_perplexity data;
         mret {| res_json := PerplexityJson perplexity; res_status := 200 |})
    (λ error,
       _ ← ((Returns tt, [ErrorLogged]) : W unit);
       mret {| res_json :=
                 ErrorJson (or_else (Some (message error)) "Failed to calculate perplexity");
               res_status := 500 |}).



End Route.
Export Route.

(** ** components/tabs/UploadTab.tsx *)

Module Upload.

(** An uploaded file: the [FileData] the analysis reads, with its [id] and
    [isValid] fields. *)
Record UploadedFile := {
  file_id : string;
  isValid : bool;
  file_data : FileData;
}.

Inductive tab := TabUpload | TabAnalysis.

(** The state of the page that the tab reads and sets. *)
Record AppState := {
  files : list UploadedFile;
  selectedFileIds : list string;
  activeTab : tab;
  analysisResult : option AnalysisResult;
  loading : bool;
  error : option string;
  useRemoteApi : bool;
}.

Definition setFiles (v : list UploadedFile) (st : AppState) : AppState :=
  {| files := v; selectedFileIds := selectedFileIds st; activeTab := activeTab st;
     analysisResult := analysisResult st; loading := loading st; error := error st;
     useRemoteApi := useRemoteApi st |}.
Definition setSelectedFileIds (v : list string) (st : AppState) : AppState :=
  {| files := files st; selectedFileIds := v; activeTab := activeTab st;
     analysisResult := analysisResult st; loading := loading st; error := error st;
     useRemoteApi := useRemoteApi st |}.
Definition setLoading (v : bool) (st : AppState) : AppState :=
  {| files := files st; selectedFileIds := selectedFileIds st; activeTab := activeTab st;
     analysisResult := analysisResult st; loading := v; error := error st;
     useRemoteApi := useRemoteApi st |}.
Definition setError (v : option string) (st : AppState) : AppState :=
  {| files := files st; selectedFileIds := selectedFileIds st; activeTab := activeTab st;
     analysisResult := analysisResult st; loading := loading st; error := v;
     useRemoteApi := useRemoteApi st |}.
Definition setUseRemoteApi (v : bool) (st : AppState) : AppState :=
  {| files := files st; selectedFileIds := selectedFileIds st; activeTab := activeTab st;
     analysisResult := analysisResult st; loading := loading st; error := error st;
     useRemoteApi := v |}.

(** [handleFileUpload], given what [processFile] came to for each chosen
    file, in the order in which [Promise.all] sees them settle. *)
Definition handleFileUpload (processed : list (Result (option UploadedFile)))
    (st : AppState) : AppState :=
  match processed with
  | [] => st
  | _ =>
      let st := setError None (setLoading true st) in
      match mapM id processed with
      | Returns processedFiles =>
          setLoading false (setFiles (files st ++ omap id processedFiles) st)
      | Throws err =>
          setLoading false
            (setError (Some ("Error processing files: " +:+ message err)) st)
      end
  end.

Definition removeFile (fileId : string) (st : AppState) : AppState :=
  setSelectedFileIds (filter (λ id, id ≠ fileId) (selectedFileIds st))
    (setFiles (filter (λ file, file_id file ≠ fileId) (files st)) st).

Definition toggleFileSelection (fileId : string) (st : AppState) : AppState :=
  let prevIds := selectedFileIds st in
  setSelectedFileIds
    (if decide (fileId ∈ prevIds)
     then filter (λ id, id ≠ fileId) prevIds
     else prevIds ++ [fileId])
    st.

(** The callback passed to [analyzeFiles] as [onApiError]. *)
Definition onApiError (st : AppState) : AppState :=
  setUseRemoteApi false
    (setError (Some "Failed to connect to Python API. Using fallback method.") st).

#[global] Instance event_eq_dec : EqDecision event.
Proof. solve_decision. Defined.


(** [files.filter(file => selectedFileIds.includes(file.id) && file.isValid)] *)
Definition selectedFiles (st : AppState) : list UploadedFile :=
  filter (λ file, file_id file ∈ selectedFileIds st ∧ isValid file = true) (files st).


(** The selection names uploaded files only. *)
Definition selection_ok (st : AppState) : Prop :=
  selectedFileIds st ⊆ map file_id (files st).

End Upload.
Export Upload.

(** ** components/analysis/PerplexityCharts.tsx *)

(** The legend of a file in a chart:
    [name.substring(0, n) + (name.length > n ? '...' : '')],
    with [n] 20 in the bar chart and 15 in the other two. *)
Definition chartName (n : nat) (name : string) : string :=
  String.substring 0 n name +:+ (if (n <? String.length name)%nat then "..." else "").

(** ** Vocabulary of the further properties *)

(** What a comparison row records for its id. *)
Definition row_of_first_matches (file1 file2 : FileData) (row : ComparisonRow) : Prop :=
  ∃ r1 r2,
    findRow file1 (cmp_id row) = Some r1 ∧ findRow file2 (cmp_id row) = Some r2 ∧
    textOf r1 = Returns (file1Text row) ∧ textOf r2 = Returns (file2Text row) ∧
    cmp_wordsMatch row = wordsMatch (file1Text row) (file2Text row) ∧
    cmp_textsDifferent row = textsDifferent (file1Text row) (file2Text row).

(** The number of records of the datasets. *)
Definition totalRows (files : list FileData) : nat :=
  sum_list (map (λ file, length (data file)) files).

(** The world after [n] records were scored: the oracles are as before,
    the remote strategy has sent [n] requests and the local one none; the
    local strategy has taken [n] draws and logged nothing. *)
Definition scored (useRemoteApi : bool) (n : nat) (w w' : World) : Prop :=
  backend w' = backend w ∧ random w' = random w ∧
  requests w' = (requests w + (if useRemoteApi then n else 0))%nat ∧
  (useRemoteApi = false → trace w' = trace w ∧ draws w' = (draws w + n)%nat).

(** The backend fails every request inside the [try] block. *)
Definition backend_down (w : World) : Prop :=
  ∀ text n, raises_in_try (backend w text n).

(** The world after [n] records fell back to the local heuristic: [n]
    requests, [n] draws, and [n] times the log entry and the call of the
    callback. *)
Definition fell_back (n : nat) (w w' : World) : Prop :=
  backend w' = backend w ∧ random w' = random w ∧
  requests w' = (requests w + n)%nat ∧ draws w' = (draws w + n)%nat ∧
  trace w' = trace w ++ concat (replicate n [ConsoleError; ApiErrorNotified]).

(** A report holds the scores of a dataset: its name, and one score per
    record, in order, with the record's id and coerced text; its average
    and histogram are those of the scores. *)
Definition report_of (file : FileData) (report : PerplexityScore) : Prop :=
  score_name report = name file ∧
  map score_id (scores report) = map row_id (data file) ∧
  Forall2 (λ row score, textOf row = Returns (score_text score))
          (data file) (scores report) ∧
  avgPerplexity report = Lodash.mean (map perplexity (scores report)) ∧
  distribution_of report = distribution (map perplexity (scores report)).

(** A score of the local heuristic: a number in [5, 30). *)
Definition in_local_range (p : option Q) : Prop :=
  ∃ q, p = Some q ∧ (5 <= q)%Q ∧ (q < 30)%Q.

(** The texts the route handler sent to the Python API, in order. *)
Definition python_calls (log : list route_event) : list value :=
  omap (λ e, match e with PythonCalled text => Some text | ErrorLogged => None end) log.

(** The files that the settled uploads resolved to, in order. *)
Definition resolved (processed : list (Result (option UploadedFile))) : list UploadedFile :=
  omap (λ r, match r with Returns (Some file) => Some file | _ => None end) processed.

(** * Properties *)

(** ** Strings *)

Section Split.

Lemma split_not_nil sep s : split sep s ≠ [].
Proof. destruct s as [|c s]; simpl; [done|]. by repeat case_match. Qed.

Lemma split_space_length s : length (split " " s) = S (spaces s).
Proof.
  induction s as [|c s IH]; simpl; [done|].
  destruct (Ascii.eqb c " "); simpl; [by rewrite IH|].
  destruct (split " " s) eqn:E; [by apply split_not_nil in E|].
  simpl in *. done.
Qed.

Lemma lower_ascii_space c : lower_ascii c = " "%char ↔ c = " "%char.
Proof.
  destruct c as [[] [] [] [] [] [] [] []]; vm_compute; split; congruence.
Qed.

Lemma spaces_toLowerCase s : spaces (toLowerCase s) = spaces s.
Proof.
  induction s as [|c s IH]; simpl; [done|]. rewrite IH. f_equal.
  destruct (Ascii.eqb_spec (lower_ascii c) " ") as [H|H];
    destruct (Ascii.eqb_spec c " ") as [H'|H']; try done.
  - apply (proj1 (lower_ascii_space c)) in H. contradiction.
  - apply (proj2 (lower_ascii_space c)) in H'. contradiction.
Qed.

End Split.

(** ** Statistics *)

Lemma textLength_returns row : ∃ n, textLength row = Returns n.
Proof.
  unfold textLength. destruct row as [i [| |[]|n|s]]; simpl; eauto.
  - destruct (truthy (VNum n)); eauto.
  - destruct (truthy (VStr s)); eauto.
Qed.

Lemma mapM_Result_returns {A B} (f : A → Result B) (l : list A) :
  (∀ x, x ∈ l → ∃ y, f x = Returns y) →
  ∃ ys, mapM f l = Returns ys ∧ length ys = length l.
Proof.
  induction l as [|x l IH]; intros Hf.
  - by exists [].
  - destruct (Hf x) as [y Hy]; [left|].
    destruct IH as (ys & Hys & Hlen); [intros; apply Hf; by right|].
    exists (y :: ys). simpl. rewrite Hy. simpl. rewrite Hys. simpl.
    split; [done|]. by rewrite Hlen.
Qed.

Lemma textLengths_returns file :
  ∃ lens, textLengths file = Returns lens ∧ length lens = length (data file).
Proof. apply mapM_Result_returns. intros; apply textLength_returns. Qed.

Lemma fileStat_returns file :
  ∃ stats, fileStat file = Returns stats ∧ rowCount stats = length (data file).
Proof.
  unfold fileStat. destruct (textLengths_returns file) as (lens & -> & _).
  simpl. eauto.
Qed.

Lemma fileStats_returns files : ∃ stats, fileStats files = Returns stats.
Proof.
  destruct (mapM_Result_returns fileStat files) as (ys & H & _); [|by eauto].
  intros x _. destruct (fileStat_returns x) as (s & ? & _). eauto.
Qed.

(** C1. The statistics of a dataset: [rowCount] is the number of records;
    on a dataset without records [minWordCount] and [maxWordCount] are 0,
    but [avgWordCount] is [NaN], not 0: [_.mean] of the empty array is
    [NaN] and nothing guards it. *)
Theorem fileStat_rowCount_and_empty_dataset :
  (∀ file, ∃ stats, fileStat file = Returns stats ∧ rowCount stats = length (data file)) ∧
  (∀ n, fileStat {| name := n; data := [] |} =
        Returns {| stats_name := n; rowCount := 0; avgWordCount := NaN;
                   maxWordCount := 0; minWordCount := 0 |}).
Proof. split; [apply fileStat_returns | done]. Qed.

(** C5, as stated, fails: two consecutive spaces make an empty token that
    is counted, and a tab separates nothing. *)
Lemma textLength_is_not_whitespace_tokens :
  let row := {| row_id := VNum 1; row_text := VStr "a  b" |} in
  textLength row = Returns 3%nat ∧
  length (whitespace_tokens "a  b") = 2%nat ∧
  textLength row ≠ Returns (length (whitespace_tokens "a  b")).
Proof. vm_compute. split_and!; [done..|discriminate]. Qed.

(** C5, amended. A record whose text cell is truthy counts as many words
    as its text (the string form of the cell, which is also the text that
    is scored and compared) has pieces when cut at every single space
    character, one more than its number of spaces. A record whose text
    cell is falsy (absent, [null], the empty string, the number 0 or
    [false]) counts 0 words, although the cells 0 and [false] are scored
    as the texts "0" and "false". *)
Theorem textLength_cuts_at_single_spaces (row : Row) :
  (truthy (row_text row) = true →
   ∃ s, toString (row_text row) = Returns s ∧ textOf row = Returns s ∧
        textLength row = Returns (length (split " " s)) ∧
        length (split " " s) = S (spaces s)) ∧
  (truthy (row_text row) = false →
   textLength row = Returns 0%nat ∧
   (row_text row = VUndefined ∨ row_text row = VNull ∨ row_text row = VStr "" ∨
    row_text row = VNum 0 ∨ row_text row = VBool false)) ∧
  (∀ s, row_text row = VStr s →
     textLength row =
       Returns (if decide (s = EmptyString) then 0%nat else length (split " " s))) ∧
  (row_text row = VNum 0 → textOf row = Returns "0"%string) ∧
  (row_text row = VBool false → textOf row = Returns "false"%string).
Proof.
  assert (Hor : ∀ s : string, or_else (Some s) ""%string = s).
  { intros s. unfold or_else. by destruct s. }
  unfold textLength, textOf. split_and!.
  - intros Ht. rewrite Ht.
    destruct (row_text row) as [| |b|n|s]; try discriminate Ht.
    + destruct b; [|discriminate Ht]. exists "true"%string.
      split_and!; [done..|apply split_space_length].
    + exists (pretty n).
      split_and!; [done|exact (f_equal Returns (Hor (pretty n)))|done|apply split_space_length].
    + exists s.
      split_and!; [done|exact (f_equal Returns (Hor s))|done|apply split_space_length].
  - intros Ht. rewrite Ht. split; [done|].
    destruct (row_text row) as [| |[]|n|s]; try discriminate Ht; auto.
    + right. right. right. left. f_equal. simpl in Ht.
      apply negb_false_iff, Z.eqb_eq in Ht. exact Ht.
    + right. right. left. by destruct s.
  - intros s ->. simpl. by destruct s.
  - by intros ->.
  - by intros ->.
Qed.

(** ** The comparator *)

Section CountBy.

Implicit Types (l : list string) (m : gmap string nat) (k : string).

Lemma countBy_lookup_from m l k :
  foldl Lodash.countBy_step m l !! k =
    match m !! k with
    | Some n => Some (n + count_occ String.string_dec l k)%nat
    | None => match count_occ String.string_dec l k with O => None | S c => Some (S c) end
    end.
Proof.
  revert m. induction l as [|x l IH]; intros m; simpl.
  - destruct (m !! k) as [n|]; [f_equal; lia|done].
  - rewrite IH. unfold Lodash.countBy_step at 1. simpl.
    destruct (String.string_dec x k) as [->|Hne].
    + destruct (m !! k) as [n|] eqn:E; rewrite lookup_insert_eq; f_equal; lia.
    + destruct (m !! x) as [n|] eqn:E; by rewrite lookup_insert_ne.
Qed.

Lemma countBy_lookup l k :
  Lodash.countBy l !! k = match count_occ String.string_dec l k with O => None | S c => Some (S c) end.
Proof. unfold Lodash.countBy. by rewrite countBy_lookup_from, lookup_empty. Qed.

Lemma countBy_eq_iff l1 l2 : Lodash.countBy l1 = Lodash.countBy l2 ↔ l1 ≡ₚ l2.
Proof.
  rewrite (Permutation_count_occ String.string_dec). split.
  - intros Heq k. pose proof (countBy_lookup l1 k) as H1.
    rewrite Heq, countBy_lookup in H1.
    destruct (count_occ String.string_dec l1 k), (count_occ String.string_dec l2 k); congruence.
  - intros Hocc. apply map_eq. intros k. rewrite !countBy_lookup.
    by rewrite Hocc.
Qed.

End CountBy.

Lemma wordsMatch_iff_Permutation t1 t2 :
  wordsMatch t1 t2 = true ↔ split " " t1 ≡ₚ split " " t2.
Proof.
  unfold wordsMatch, Lodash.isEqual. rewrite bool_decide_eq_true.
  apply countBy_eq_iff.
Qed.




(** ** The scorer *)

Section SetSize.

Implicit Types l : list string.

Lemma Set_size_cons x l :
  Set_size (x :: l) = if decide (x ∈ l) then Set_size l else S (Set_size l).
Proof.
  unfold Set_size. simpl. destruct (decide (x ∈ l)) as [Hx|Hx].
  - f_equal. apply set_eq. intros y.
    rewrite elem_of_union, elem_of_singleton, !elem_of_list_to_set.
    split; [intros [->|Hy]; assumption|by right].
  - rewrite size_union, size_singleton; [done|].
    apply disjoint_singleton_l. by rewrite elem_of_list_to_set.
Qed.

Lemma Set_size_le l : (Set_size l ≤ length l)%nat.
Proof.
  induction l as [|x l IH]; [done|].
  rewrite Set_size_cons. simpl. destruct (decide (x ∈ l)); lia.
Qed.

Lemma Set_size_NoDup l : NoDup l → Set_size l = length l.
Proof. apply size_list_to_set. Qed.

Lemma Set_size_dup l : ¬ NoDup l → (Set_size l < length l)%nat.
Proof.
  induction l as [|x l IH]; intros Hdup.
  - destruct Hdup. constructor.
  - rewrite Set_size_cons. simpl. pose proof (Set_size_le l).
    destruct (decide (x ∈ l)) as [Hx|Hx]; [lia|].
    assert (Set_size l < length l)%nat; [|lia].
    apply IH. intros Hnd. apply Hdup. by constructor.
Qed.

End SetSize.

Lemma toLowerCase_split_length text :
  length (split " " (toLowerCase text)) = length (split " " text).
Proof. by rewrite !split_space_length, spaces_toLowerCase. Qed.

Lemma num_of_nat_pos n : (0 < n)%nat → (0 < num_of_nat n)%Q.
Proof.
  intros Hn. unfold num_of_nat. rewrite <- (Zlt_Qlt 0). lia.
Qed.

Lemma entropy_NoDup text :
  NoDup (split " " (toLowerCase text)) → (entropy text == 1)%Q.
Proof.
  intros Hnd. unfold entropy.
  rewrite (Set_size_NoDup _ Hnd), toLowerCase_split_length.
  apply Qmult_inv_r. apply Qnot_eq_sym, Qlt_not_eq, num_of_nat_pos.
  rewrite split_space_length. lia.
Qed.

Lemma entropy_dup text :
  ¬ NoDup (split " " (toLowerCase text)) → (entropy text < 1)%Q.
Proof.
  intros Hdup. apply Set_size_dup in Hdup.
  rewrite toLowerCase_split_length in Hdup. unfold entropy.
  apply Qlt_shift_div_r.
  - apply num_of_nat_pos. lia.
  - rewrite Qmult_1_l. unfold num_of_nat. rewrite <- Zlt_Qlt. lia.
Qed.

Lemma dummyPerplexity_run text w :
  dummyPerplexity text w =
    (Returns (Some (5 + 25 * (1 - entropy text) * random w (draws w))%Q),
     {| backend := backend w; requests := requests w; random := random w;
        draws := S (draws w); trace := trace w |}).
Proof. reflexivity. Qed.

Lemma calculatePerplexity_local text onApiError w :
  calculatePerplexity text false onApiError w = dummyPerplexity text w.
Proof. reflexivity. Qed.

Lemma offline_random_ok u : (0 <= u)%Q → (u < 1)%Q → random_ok (offline u).
Proof. by intros ?? n. Qed.

(** C9, as stated, fails: a text whose words are all distinct scores 5
    whatever is drawn, so no two runs on it differ. *)
Lemma dummy_score_of_distinct_words_is_fixed :
  ¬ ∃ w1 w2 q1 q2,
      random_ok w1 ∧ random_ok w2 ∧
      fst (calculatePerplexity "hello" false true w1) = Returns (Some q1) ∧
      fst (calculatePerplexity "hello" false true w2) = Returns (Some q2) ∧
      ¬ (q1 == q2)%Q.
Proof.
  intros (w1 & w2 & q1 & q2 & _ & _ & H1 & H2 & Hne).
  rewrite calculatePerplexity_local, dummyPerplexity_run in H1, H2.
  simpl in H1, H2. injection H1 as <-. injection H2 as <-.
  apply Hne. assert (He : (entropy "hello" == 1)%Q) by by vm_compute.
  rewrite He. ring.
Qed.

(** C9, amended. For an ASCII text in which some lower-cased word occurs
    twice there are draws of [Math.random] on which two runs of the local
    strategy return different scores; for an ASCII text whose lower-cased
    words are all distinct every run returns 5. *)
Theorem dummy_score_varies_iff_words_repeat (text : string) :
  ascii_text text = true →
  (¬ NoDup (split " " (toLowerCase text)) →
   ∃ w1 w2 q1 q2,
     random_ok w1 ∧ random_ok w2 ∧
     fst (calculatePerplexity text false true w1) = Returns (Some q1) ∧
     fst (calculatePerplexity text false true w2) = Returns (Some q2) ∧
     ¬ (q1 == q2)%Q) ∧
  (NoDup (split " " (toLowerCase text)) →
   ∀ w onApiError, ∃ q,
     fst (calculatePerplexity text false onApiError w) = Returns (Some q) ∧
     (q == 5)%Q).
Proof.
  intros _. split.
  - intros Hdup. apply entropy_dup in Hdup.
    exists (offline 0), (offline (1 # 2)). eexists _, _.
    split_and!; [by apply offline_random_ok..|reflexivity|reflexivity|].
    simpl. lra.
  - intros Hnd w h. apply entropy_NoDup in Hnd. eexists. split; [reflexivity|].
    simpl. rewrite Hnd. ring.
Qed.

Lemma dummy_score_varies_witness :
  (ascii_text "a A" = true ∧
   ¬ NoDup (split " " (toLowerCase "a A")) ∧
   ∃ w1 w2 q1 q2,
     random_ok w1 ∧ random_ok w2 ∧
     fst (calculatePerplexity "a A" false true w1) = Returns (Some q1) ∧
     fst (calculatePerplexity "a A" false true w2) = Returns (Some q2) ∧
     ¬ (q1 == q2)%Q) ∧
  (ascii_text "the cat sat" = true ∧
   NoDup (split " " (toLowerCase "the cat sat")) ∧
   ∀ w onApiError, ∃ q,
     fst (calculatePerplexity "the cat sat" false onApiError w) = Returns (Some q) ∧
     (q == 5)%Q).
Proof.
  assert (Hdup : ¬ NoDup (split " " (toLowerCase "a A"))).
  { vm_compute. intros H. inversion H as [|?? Hin]. apply Hin. left. }
  assert (Hnd : NoDup (split " " (toLowerCase "the cat sat"))).
  { apply (bool_decide_unpack _). by vm_compute. }
  split.
  - split; [reflexivity|]. split; [exact Hdup|].
    exact (proj1 (dummy_score_varies_iff_words_repeat "a A" eq_refl) Hdup).
  - split; [reflexivity|]. split; [exact Hnd|].
    exact (proj2 (dummy_score_varies_iff_words_repeat "the cat sat" eq_refl) Hnd).
Defined.

Lemma calculatePerplexity_remote_caught text onApiError w :
  raises_in_try (backend w text (requests w)) →
  calculatePerplexity text true onApiError w =
    (Returns (Some (5 + 25 * (1 - entropy text) * random w (draws w))%Q),
     {| backend := backend w; requests := S (requests w); random := random w;
        draws := S (draws w);
        trace := (trace w ++ [ConsoleError]) ++
                 (if onApiError then [ApiErrorNotified] else []) |}).
Proof.
  intros Hfail.
  unfold calculatePerplexity, try_catch, mbind, M_bind, fetch. cbn beta iota delta [negb].
  destruct (backend w text (requests w)) as [|ok st payload]; simpl in Hfail.
  - destruct onApiError; [reflexivity|]. cbn. by rewrite app_nil_r.
  - destruct ok.
    + destruct Hfail as [?|[-> | ->]]; [done|..];
        (destruct onApiError; [reflexivity|]; cbn; by rewrite app_nil_r).
    + destruct onApiError; [reflexivity|]. cbn. by rewrite app_nil_r.
Qed.

(** C4, as stated, fails: a success response whose JSON body has no
    [perplexity] field is a failure of the backend, yet nothing is thrown
    in the [try] block: the call returns [undefined], the callback is not
    called and the local heuristic is not run. *)
Lemma calculatePerplexity_returns_missing_field :
  let w := answering (Response true "OK" (JsonData None)) (1 # 2) in
  remote_failure (backend w "a a" (requests w)) ∧
  fst (calculatePerplexity "a a" true true w) = Returns None ∧
  trace (snd (calculatePerplexity "a a" true true w)) = [] ∧
  fst (calculatePerplexity "a a" true true w) ≠ fst (calculatePerplexity "a a" false true w).
Proof. simpl. split_and!; [by right|done..]. Qed.

(** C4, amended. When the request fails inside the [try] block (the fetch
    rejects, the response is not 2xx, or its body is not JSON or is
    [null]), [calculatePerplexity] with the remote strategy logs the error,
    calls the [onApiError] callback if one was passed, and returns what the
    local heuristic returns for that call: a number, never an exception. *)
Theorem calculatePerplexity_falls_back_on_raised_failure
    (text : string) (onApiError : bool) (w : World) :
  raises_in_try (backend w text (requests w)) →
  fst (calculatePerplexity text true onApiError w) =
    fst (calculatePerplexity text false onApiError w) ∧
  (∃ q, fst (calculatePerplexity text true onApiError w) = Returns (Some q)) ∧
  trace (snd (calculatePerplexity text true onApiError w)) =
    (trace w ++ [ConsoleError]) ++ (if onApiError then [ApiErrorNotified] else []).
Proof.
  intros Hfail. rewrite (calculatePerplexity_remote_caught _ _ _ Hfail).
  rewrite calculatePerplexity_local, dummyPerplexity_run. simpl. eauto.
Qed.

Lemma calculatePerplexity_falls_back_witness :
  let w := answering (Response false "Internal Server Error" NotJson) (1 # 2) in
  raises_in_try (backend w "a a" (requests w)) ∧
  fst (calculatePerplexity "a a" true true w) =
    fst (calculatePerplexity "a a" false true w) ∧
  (∃ q, fst (calculatePerplexity "a a" true true w) = Returns (Some q)) ∧
  trace (snd (calculatePerplexity "a a" true true w)) =
    (trace w ++ [ConsoleError]) ++ [ApiErrorNotified].
Proof.
  intros w.
  assert (Hfail : raises_in_try (backend w "a a" (requests w))) by (simpl; by left).
  split; [exact Hfail|].
  exact (calculatePerplexity_falls_back_on_raised_failure "a a" true w Hfail).
Defined.

(** ** [baseExtremum] *)

Section Extremum.

Context {A B : Type} (iteratee : A → option B) (cmp : B → B → bool).

Lemma baseExtremum_go_elem computed result array :
  let r := Lodash.baseExtremum_go iteratee cmp computed result array in
  r = result ∨ (r ∈ array ∧ is_Some (iteratee r)).
Proof.
  revert computed result. induction array as [|x rest IH]; intros c r0; simpl; [by left|].
  destruct (iteratee x) as [q|] eqn:Ex.
  - destruct (cmp q c).
    + destruct (IH q x) as [->|[Hin Hs]]; right.
      * split; [left|]. by rewrite Ex.
      * split; [by right|done].
    + destruct (IH c r0) as [->|[Hin Hs]]; [by left|right].
      split; [by right|done].
  - destruct (IH c r0) as [->|[Hin Hs]]; [by left|right].
    split; [by right|done].
Qed.

Lemma baseExtremum_elem array r :
  Lodash.baseExtremum iteratee cmp array = Some r → r ∈ array ∧ is_Some (iteratee r).
Proof.
  induction array as [|x rest IH]; simpl; [done|].
  destruct (iteratee x) as [q|] eqn:Ex.
  - intros [= <-]. destruct (baseExtremum_go_elem q x rest) as [->|[Hin Hs]].
    + split; [left|]. by rewrite Ex.
    + split; [by right|done].
  - intros H. destruct (IH H). split; [by right|done].
Qed.

Lemma baseExtremum_None array :
  Lodash.baseExtremum iteratee cmp array = None ↔ Forall (λ x, iteratee x = None) array.
Proof.
  induction array as [|x rest IH]; simpl; [by split; [constructor|]|].
  destruct (iteratee x) as [q|] eqn:Ex.
  - split; [done|]. intros H. apply Forall_cons in H as [H _]. congruence.
  - rewrite IH. split; [by constructor|]. by intros [_ ?]%Forall_cons.
Qed.

(** The comparator is a strict order whose negation is a total preorder. *)
Hypothesis cmp_asym : ∀ x y, cmp x y = true → cmp y x = false.
Hypothesis cmp_le_trans : ∀ x y z, cmp y x = false → cmp z y = false → cmp z x = false.
Hypothesis cmp_lt_le : ∀ x y z, cmp x y = true → cmp z y = false → cmp x z = true.

Lemma baseExtremum_go_spec computed result array :
  iteratee result = Some computed →
  let r := Lodash.baseExtremum_go iteratee cmp computed result array in
  ∃ m, iteratee r = Some m ∧
       cmp computed m = false ∧
       (∀ x q, x ∈ array → iteratee x = Some q → cmp q m = false) ∧
       ((r = result ∧ m = computed) ∨
        (∃ pre post, array = pre ++ r :: post ∧ cmp m computed = true ∧
                     ∀ x q, x ∈ pre → iteratee x = Some q → cmp m q = true)).
Proof.
  revert computed result. induction array as [|x rest IH]; intros c r0 Hr0; simpl.
  - exists c. split_and!; [done| |by intros ?? ?%elem_of_nil|by left].
    destruct (cmp c c) eqn:E; [|done]. by rewrite (cmp_asym _ _ E) in E.
  - destruct (iteratee x) as [q|] eqn:Ex.
    + destruct (cmp q c) eqn:Eqc.
      * destruct (IH q x Ex) as (m & Hm & Hmq & Hall & Hfirst).
        exists m. split_and!; [done|..].
        -- apply (cmp_le_trans _ q); [done|by apply cmp_asym].
        -- intros y p [->|Hy]%elem_of_cons Hp; [|by eapply Hall].
           rewrite Ex in Hp. by injection Hp as <-.
        -- right. destruct Hfirst as [[Hr ->]|(pre & post & Hsplit & Hlt & Hpre)].
           ++ exists [], rest. rewrite Hr. split_and!; [done..|].
              by intros ?? ?%elem_of_nil.
           ++ exists (x :: pre), post. rewrite Hsplit at 1. split_and!; [done|..].
              ** apply (cmp_lt_le _ q); [done|by apply cmp_asym].
              ** intros y p [->|Hy]%elem_of_cons Hp; [|by eapply Hpre].
                 rewrite Ex in Hp. by injection Hp as <-.
      * destruct (IH c r0 Hr0) as (m & Hm & Hmc & Hall & Hfirst).
        exists m. split_and!; [done..| |].
        -- intros y p [->|Hy]%elem_of_cons Hp; [|by eapply Hall].
           rewrite Ex in Hp. injection Hp as <-.
           by apply (cmp_le_trans _ c).
        -- destruct Hfirst as [[Hr ->]|(pre & post & Hsplit & Hlt & Hpre)]; [by left|right].
           exists (x :: pre), post. rewrite Hsplit at 1. split_and!; [done..|].
           intros y p [->|Hy]%elem_of_cons Hp; [|by eapply Hpre].
           rewrite Ex in Hp. injection Hp as <-.
           by apply (cmp_lt_le _ c).
    + destruct (IH c r0 Hr0) as (m & Hm & Hmc & Hall & Hfirst).
      exists m. split_and!; [done..| |].
      * intros y p [->|Hy]%elem_of_cons Hp; [congruence|by eapply Hall].
      * destruct Hfirst as [[Hr ->]|(pre & post & Hsplit & Hlt & Hpre)]; [by left|right].
        exists (x :: pre), post. rewrite Hsplit at 1. split_and!; [done..|].
        intros y p [->|Hy]%elem_of_cons Hp; [congruence|by eapply Hpre].
Qed.

(** The extremum is the first element whose key no other key beats: every
    key is no better, and every earlier key is strictly worse. *)
Lemma baseExtremum_spec array r :
  Lodash.baseExtremum iteratee cmp array = Some r →
  ∃ m pre post,
    iteratee r = Some m ∧ array = pre ++ r :: post ∧
    (∀ x q, x ∈ array → iteratee x = Some q → cmp q m = false) ∧
    (∀ x q, x ∈ pre → iteratee x = Some q → cmp m q = true).
Proof.
  induction array as [|x rest IH]; simpl; [done|].
  destruct (iteratee x) as [c|] eqn:Ex.
  - intros [= <-].
    destruct (baseExtremum_go_spec c x rest Ex) as (m & Hm & Hmc & Hall & Hfirst).
    destruct Hfirst as [[Hr ->]|(pre & post & Hsplit & Hlt & Hpre)].
    + exists c, [], rest. rewrite Hr. split_and!; [done|done| |by intros ?? ?%elem_of_nil].
      intros y p [->|Hy]%elem_of_cons Hp; [|by eapply Hall].
      rewrite Ex in Hp. by injection Hp as <-.
    + exists m, (x :: pre), post. split_and!; [done|simpl; by f_equal| |].
      * intros y p [->|Hy]%elem_of_cons Hp; [|by eapply Hall].
        rewrite Ex in Hp. by injection Hp as <-.
      * intros y p [->|Hy]%elem_of_cons Hp; [|by eapply Hpre].
        rewrite Ex in Hp. by injection Hp as <-.
  - intros H. destruct (IH H) as (m & pre & post & Hm & Hsplit & Hall & Hpre).
    exists m, (x :: pre), post. rewrite Hsplit at 1. split_and!; [done..| |].
    + intros y p [->|Hy]%elem_of_cons Hp; [congruence|by eapply Hall].
    + intros y p [->|Hy]%elem_of_cons Hp; [congruence|by eapply Hpre].
Qed.

End Extremum.

Section QOrder.

Lemma Qltb_true x y : Lodash.Qltb x y = true ↔ (x < y)%Q.
Proof.
  unfold Lodash.Qltb. rewrite negb_true_iff, <- not_true_iff_false, Qle_bool_iff.
  split; [apply Qnot_le_lt|apply Qlt_not_le].
Qed.

Lemma Qltb_false x y : Lodash.Qltb x y = false ↔ (y <= x)%Q.
Proof. unfold Lodash.Qltb. by rewrite negb_false_iff, Qle_bool_iff. Qed.

Lemma baseLt_asym x y : Lodash.baseLt x y = true → Lodash.baseLt y x = false.
Proof. unfold Lodash.baseLt. rewrite Qltb_true, Qltb_false. apply Qlt_le_weak. Qed.

Lemma baseLt_le_trans x y z :
  Lodash.baseLt y x = false → Lodash.baseLt z y = false → Lodash.baseLt z x = false.
Proof. unfold Lodash.baseLt. rewrite !Qltb_false. apply Qle_trans. Qed.

Lemma baseLt_lt_le x y z :
  Lodash.baseLt x y = true → Lodash.baseLt z y = false → Lodash.baseLt x z = true.
Proof. unfold Lodash.baseLt. rewrite !Qltb_true, Qltb_false. apply Qlt_le_trans. Qed.

Lemma baseGt_asym x y : Lodash.baseGt x y = true → Lodash.baseGt y x = false.
Proof. unfold Lodash.baseGt. rewrite Qltb_true, Qltb_false. apply Qlt_le_weak. Qed.

Lemma baseGt_le_trans x y z :
  Lodash.baseGt y x = false → Lodash.baseGt z y = false → Lodash.baseGt z x = false.
Proof. unfold Lodash.baseGt. rewrite !Qltb_false. intros ??. by eapply Qle_trans. Qed.

Lemma baseGt_lt_le x y z :
  Lodash.baseGt x y = true → Lodash.baseGt z y = false → Lodash.baseGt x z = true.
Proof. unfold Lodash.baseGt. rewrite !Qltb_true, Qltb_false. intros ??. by eapply Qle_lt_trans. Qed.

End QOrder.

(** ** The histogram *)

Lemma baseRange_go_length n start step :
  length (Lodash.baseRange_go n start step) = n.
Proof. revert start. induction n as [|n IH]; intros start; simpl; [done|]. by rewrite IH. Qed.

Lemma range_step_zero start end_ step :
  (step == 0)%Q →
  Lodash.range start end_ step =
    Lodash.baseRange_go (Z.to_nat (Z.max (ceil (end_ - start)) 0)) start step.
Proof.
  intros Hstep. unfold Lodash.range, or_else, truthy, truthy_Q.
  apply Qeq_bool_iff in Hstep. rewrite Hstep. simpl negb. cbv iota.
  do 3 f_equal. unfold ceil. apply Qceiling_comp. field.
Qed.

Lemma range_step_nonzero start end_ step :
  ¬ (step == 0)%Q →
  Lodash.range start end_ step =
    Lodash.baseRange_go (Z.to_nat (Z.max (ceil ((end_ - start) / step)) 0)) start step.
Proof.
  intros Hstep. unfold Lodash.range, or_else, truthy, truthy_Q.
  destruct (Qeq_bool step 0) eqn:E; [by apply Qeq_bool_iff in E|done].
Qed.

Lemma distribution_buckets perplexityValues :
  let min := floor (or_else (Lodash.min perplexityValues) 0%Q) in
  let max := ceil (or_else (Lodash.max perplexityValues) 30%Q) in
  let bucketSize := (inject_Z (max - min) / 10)%Q in
  map bucket (distribution perplexityValues) =
    Lodash.baseRange_go (if decide (min = max) then 0 else 11) (inject_Z min) bucketSize.
Proof.
  intros min max bucketSize. unfold distribution. fold min max bucketSize.
  rewrite map_map. simpl. rewrite map_id.
  destruct (decide (min = max)) as [Heq|Hne].
  - assert (Hzero : (bucketSize == 0)%Q).
    { unfold bucketSize. rewrite Heq, Z.sub_diag. reflexivity. }
    rewrite (range_step_zero _ _ _ Hzero).
    assert (Hc : ceil (inject_Z max + bucketSize - inject_Z min) = 0).
    { unfold ceil. rewrite <- (Qceiling_Z 0). apply Qceiling_comp.
      rewrite Hzero, Heq. simpl. ring. }
    by rewrite Hc.
  - assert (Hdiff : (inject_Z (max - min) == inject_Z max - inject_Z min)%Q).
    { unfold Z.sub. by rewrite inject_Z_plus, inject_Z_opp. }
    assert (Hnz : ¬ (inject_Z (max - min) == 0)%Q).
    { rewrite (inject_Z_injective (max - min) 0). lia. }
    assert (Hstep : ¬ (bucketSize == 0)%Q).
    { unfold bucketSize. intros H. apply Hnz.
      transitivity (inject_Z (max - min) / 10 * 10)%Q; [field|].
      rewrite H. ring. }
    rewrite (range_step_nonzero _ _ _ Hstep).
    assert (Hc : ceil ((inject_Z max + bucketSize - inject_Z min) / bucketSize) = 11).
    { unfold ceil. rewrite <- (Qceiling_Z 11). apply Qceiling_comp.
      unfold bucketSize. rewrite Hdiff. rewrite Hdiff in Hnz. simpl. field. exact Hnz. }
    by rewrite Hc.
Qed.

Lemma distribution_length perplexityValues :
  length (distribution perplexityValues) =
    if decide (floor (or_else (Lodash.min perplexityValues) 0%Q) =
               ceil (or_else (Lodash.max perplexityValues) 30%Q))
    then 0%nat else 11%nat.
Proof.
  rewrite <- (length_map bucket), distribution_buckets, baseRange_go_length. done.
Qed.

Lemma baseRange_go_from n start0 start step j :
  (start == start0 + num_of_nat j * step)%Q →
  Forall2 (λ b k, (b == start0 + num_of_nat k * step)%Q)
          (Lodash.baseRange_go n start step) (seq j n).
Proof.
  revert start j. induction n as [|n IH]; intros start j Hstart; simpl; constructor; [done|].
  apply IH. rewrite Hstart. unfold num_of_nat.
  rewrite Nat2Z.inj_succ, <- Z.add_1_r, inject_Z_plus. ring.
Qed.

Lemma min_elem vs : Exists is_Some vs → ∃ q, Lodash.min vs = Some q ∧ Some q ∈ vs.
Proof.
  intros Hex. unfold Lodash.min.
  destruct (Lodash.baseExtremum id Lodash.baseLt vs) as [r|] eqn:E.
  - apply baseExtremum_elem in E as [Hin [q Hq]]. simpl in Hq. subst r. by exists q.
  - apply baseExtremum_None in E. apply Exists_exists in Hex as (x & Hx & [q ->]).
    rewrite Forall_forall in E. by specialize (E _ Hx).
Qed.

Lemma max_elem vs : Exists is_Some vs → ∃ q, Lodash.max vs = Some q ∧ Some q ∈ vs.
Proof.
  intros Hex. unfold Lodash.max.
  destruct (Lodash.baseExtremum id Lodash.baseGt vs) as [r|] eqn:E.
  - apply baseExtremum_elem in E as [Hin [q Hq]]. simpl in Hq. subst r. by exists q.
  - apply baseExtremum_None in E. apply Exists_exists in Hex as (x & Hx & [q ->]).
    rewrite Forall_forall in E. by specialize (E _ Hx).
Qed.

Lemma or_else_nonzero (q d : Q) : ¬ (q == 0)%Q → or_else (Some q) d = q.
Proof.
  intros Hq. unfold or_else, truthy, truthy_Q.
  destruct (Qeq_bool q 0) eqn:E; [by apply Qeq_bool_iff in E|done].
Qed.

(** In exact arithmetic the histogram has the 11 buckets that start at
    [min + k * bucketSize], k = 0..10, when [min ≠ max], and none when
    [min = max]. *)
Lemma distribution_bucket_starts (perplexityValues : list (option Q)) :
  let min := floor (or_else (Lodash.min perplexityValues) 0%Q) in
  let max := ceil (or_else (Lodash.max perplexityValues) 30%Q) in
  let bucketSize := (inject_Z (max - min) / 10)%Q in
  Forall2 (λ b k, (bucket b == inject_Z min + num_of_nat k * bucketSize)%Q)
          (distribution perplexityValues)
          (seq 0 (if decide (min = max) then 0 else 11)).
Proof.
  intros min max bucketSize.
  assert (H : Forall2 (λ q k, (q == inject_Z min + num_of_nat k * bucketSize)%Q)
                      (bucket <$> distribution perplexityValues)
                      (seq 0 (if decide (min = max) then 0 else 11))).
  { change (Forall2 (λ q k, (q == inject_Z min + num_of_nat k * bucketSize)%Q)
                    (map bucket (distribution perplexityValues))
                    (seq 0 (if decide (min = max) then 0 else 11))).
    rewrite distribution_buckets. fold min max bucketSize.
    apply baseRange_go_from. unfold num_of_nat. simpl. ring. }
  by apply Forall2_fmap_l in H.
Qed.

(** C2. The histogram does not have 10 buckets. For the scores 0.5 and
    9.5 the range is [0, 10] and the bucket size 1, as claimed, but there
    are 11 buckets, starting at 0, 1, ..., 10: the last one, [10, 11), lies
    beyond the range. For no scores the range defaults to [0, 30] and the
    buckets start at 0, 3, ..., 30, again 11 of them. Every number in
    these two evaluations is a multiple of one half, on which the
    arithmetic of doubles is exact. *)
Theorem distribution_has_eleven_buckets :
  map (λ b, Qred (bucket b)) (distribution [Some (1 # 2); Some (19 # 2)]%Q) =
    [0; 1; 2; 3; 4; 5; 6; 7; 8; 9; 10]%Q ∧
  map count (distribution [Some (1 # 2); Some (19 # 2)]%Q) =
    [1; 0; 0; 0; 0; 0; 0; 0; 0; 1; 0]%nat ∧
  length (distribution [Some (1 # 2); Some (19 # 2)]%Q) = 11%nat ∧
  map (λ b, Qred (bucket b)) (distribution []) =
    [0; 3; 6; 9; 12; 15; 18; 21; 24; 27; 30]%Q ∧
  map count (distribution []) = [0; 0; 0; 0; 0; 0; 0; 0; 0; 0; 0]%nat.
Proof. split_and!; by vm_compute. Qed.

Lemma distribution_nil_of_one_integer (perplexityValues : list (option Q)) (n : Z) :
  perplexityValues ≠ [] →
  n ≠ 0 →
  Forall (λ p, ∃ q, p = Some q ∧ (q == inject_Z n)%Q) perplexityValues →
  distribution perplexityValues = [].
Proof.
  intros Hne Hn Hall.
  assert (Hex : Exists is_Some perplexityValues).
  { destruct perplexityValues as [|p rest]; [done|].
    apply Forall_cons in Hall as [(q & -> & _) _]. by left. }
  assert (Hq : ∀ q, Some q ∈ perplexityValues → (q == inject_Z n)%Q ∧ ¬ (q == 0)%Q).
  { intros q Hin. rewrite Forall_forall in Hall.
    destruct (Hall _ Hin) as (q' & [= <-] & Heq). split; [done|].
    rewrite Heq. rewrite (inject_Z_injective n 0). done. }
  apply length_zero_iff_nil. rewrite distribution_length.
  destruct (min_elem _ Hex) as (lo & -> & Hlo).
  destruct (max_elem _ Hex) as (hi & -> & Hhi).
  apply Hq in Hlo as [Hlo Hlo0]. apply Hq in Hhi as [Hhi Hhi0].
  rewrite !or_else_nonzero by done. unfold floor, ceil.
  rewrite (Qfloor_comp _ _ Hlo), (Qceiling_comp _ _ Hhi), Qfloor_Z, Qceiling_Z.
  by rewrite decide_True.
Qed.

(** The local strategy on a file whose one text has no repeated word: the
    score is 5 whatever is drawn, and the histogram of the file is empty. *)
Lemma scoreFile_local_distinct_words_no_bucket (w : World) :
  let file := {| name := "a.csv";
                 data := [ {| row_id := VNum 1; row_text := VStr "the cat sat" |} ] |} in
  ∃ report,
    fst (scoreFile false true file w) = Returns report ∧
    length (scores report) = 1%nat ∧
    distribution_of report = [].
Proof.
  intros file. eexists. split; [reflexivity|]. split; [reflexivity|].
  cbn [distribution_of map perplexity].
  apply (distribution_nil_of_one_integer _ 5); [done..|].
  constructor; [|constructor]. eexists. split; [reflexivity|].
  assert (He : (entropy "the cat sat" == 1)%Q) by by vm_compute.
  rewrite He. ring.
Qed.

(** C3. When all the scores are numbers equal to one integer other than 0,
    the floor of the least and the ceiling of the greatest coincide, the
    bucket size is 0 and the histogram has no bucket at all: the counts sum
    to 0 and every score is dropped. *)
Theorem distribution_empty_when_scores_are_one_integer
    (perplexityValues : list (option Q)) (n : Z) :
  perplexityValues ≠ [] →
  n ≠ 0 →
  Forall (λ p, ∃ q, p = Some q ∧ (q == inject_Z n)%Q) perplexityValues →
  distribution perplexityValues = [] ∧
  totalCount (distribution perplexityValues) = 0%nat ∧
  totalCount (distribution perplexityValues) ≠ length perplexityValues.
Proof.
  intros Hne Hn Hall.
  rewrite (distribution_nil_of_one_integer _ _ Hne Hn Hall).
  split_and!; [done..|].
  unfold totalCount. simpl. by destruct perplexityValues.
Qed.

Lemma distribution_empty_witness :
  [Some 5%Q] ≠ [] ∧ 5 ≠ 0 ∧
  Forall (λ p, ∃ q, p = Some q ∧ (q == inject_Z 5)%Q) [Some 5%Q] ∧
  distribution [Some 5%Q] = [] ∧
  totalCount (distribution [Some 5%Q]) = 0%nat ∧
  totalCount (distribution [Some 5%Q]) ≠ length [Some 5%Q].
Proof.
  assert (H1 : [Some 5%Q] ≠ []) by done.
  assert (H2 : 5 ≠ 0) by done.
  assert (H3 : Forall (λ p, ∃ q, p = Some q ∧ (q == inject_Z 5)%Q) [Some 5%Q]).
  { constructor; [|constructor]. by exists 5%Q. }
  split_and!; [done..| | |];
    apply (distribution_empty_when_scores_are_one_integer [Some 5%Q] 5 H1 H2 H3).
Defined.

(** *** Every score is counted, when there are buckets *)

Lemma min_le vs m q : Lodash.min vs = Some m → Some q ∈ vs → (m <= q)%Q.
Proof.
  unfold Lodash.min. intros Hmin Hq.
  destruct (Lodash.baseExtremum id Lodash.baseLt vs) as [r|] eqn:E; [|done].
  simpl in Hmin. subst r.
  apply (baseExtremum_spec _ _ baseLt_asym baseLt_le_trans baseLt_lt_le) in E
    as (m' & pre & post & [= <-] & _ & Hall & _).
  by apply Qltb_false, (Hall (Some q)).
Qed.

Lemma max_ge vs m q : Lodash.max vs = Some m → Some q ∈ vs → (q <= m)%Q.
Proof.
  unfold Lodash.max. intros Hmax Hq.
  destruct (Lodash.baseExtremum id Lodash.baseGt vs) as [r|] eqn:E; [|done].
  simpl in Hmax. subst r.
  apply (baseExtremum_spec _ _ baseGt_asym baseGt_le_trans baseGt_lt_le) in E
    as (m' & pre & post & [= <-] & _ & Hall & _).
  by apply Qltb_false, (Hall (Some q)).
Qed.

Lemma or_else_Q_cases (q d : Q) :
  or_else (Some q) d = q ∨ ((q == 0)%Q ∧ or_else (Some q) d = d).
Proof.
  unfold or_else, truthy, truthy_Q.
  destruct (Qeq_bool q 0) eqn:E; [right|by left].
  split; [by apply Qeq_bool_iff|done].
Qed.

Lemma distribution_range_bounds vs q :
  Some q ∈ vs →
  (inject_Z (floor (or_else (Lodash.min vs) 0)) <= q)%Q ∧
  (q <= inject_Z (ceil (or_else (Lodash.max vs) 30)))%Q.
Proof.
  intros Hq.
  assert (Hex : Exists is_Some vs) by (apply Exists_exists; by exists (Some q)).
  destruct (min_elem _ Hex) as (lo & Hlo & _), (max_elem _ Hex) as (hi & Hhi & _).
  pose proof (min_le _ _ _ Hlo Hq) as Hle. pose proof (max_ge _ _ _ Hhi Hq) as Hge.
  rewrite Hlo, Hhi. unfold floor, ceil. split.
  - destruct (or_else_Q_cases lo 0) as [->|[H0 ->]].
    + eapply Qle_trans; [apply Qfloor_le|done].
    + change (Qfloor 0) with 0. change (inject_Z 0) with 0%Q. by rewrite <- H0.
  - destruct (or_else_Q_cases hi 30) as [->|[H0 ->]].
    + eapply Qle_trans; [done|apply Qle_ceiling].
    + change (Qceiling 30) with 30. eapply Qle_trans; [done|]. by rewrite H0.
Qed.

Section Hits.

Context (w : Q) (w_pos : (0 < w)%Q).

Implicit Types (p start : Q) (n : nat).

Lemma hits_below n start p :
  (p < start)%Q →
  filter (λ b, inBucket b w (Some p) = true) (Lodash.baseRange_go n start w) = [].
Proof.
  revert start. induction n as [|n IH]; intros start Hp; [done|].
  cbn [Lodash.baseRange_go]. rewrite filter_cons_False.
  - apply IH. lra.
  - simpl. rewrite andb_true_iff, Qle_bool_iff. intros [? _]. lra.
Qed.

Lemma hits_inside n start p :
  (start <= p)%Q → (p < start + num_of_nat n * w)%Q →
  length (filter (λ b, inBucket b w (Some p) = true) (Lodash.baseRange_go n start w)) = 1%nat.
Proof.
  revert start. induction n as [|n IH]; intros start Hlo Hhi.
  - change (num_of_nat 0) with 0%Q in Hhi. lra.
  - assert (Hn : (num_of_nat (S n) == num_of_nat n + 1)%Q).
    { unfold num_of_nat. by rewrite Nat2Z.inj_succ, <- Z.add_1_r, inject_Z_plus. }
    cbn [Lodash.baseRange_go].
    destruct (Qlt_le_dec p (start + w)) as [Hin|Hout].
    + rewrite filter_cons_True.
      * by rewrite hits_below.
      * simpl. rewrite andb_true_iff, Qle_bool_iff, Qltb_true. done.
    + rewrite filter_cons_False.
      * apply IH; [done|]. rewrite Hn in Hhi. lra.
      * simpl. rewrite andb_true_iff, Qltb_true. intros [_ ?]. lra.
Qed.

Lemma hits_undefined (buckets : list Q) :
  filter (λ b, inBucket b w None = true) buckets = [].
Proof. induction buckets as [|b buckets IH]; [done|]. by rewrite filter_cons_False. Qed.

Lemma hits_total n start (vs : list (option Q)) :
  (∀ q, Some q ∈ vs → (start <= q)%Q ∧ (q < start + num_of_nat n * w)%Q) →
  sum_list (map (λ v, length (filter (λ b, inBucket b w v = true)
                                     (Lodash.baseRange_go n start w))) vs) =
    length (filter is_Some vs).
Proof.
  induction vs as [|v vs IH]; intros Hvs; [done|].
  assert (Hrest : sum_list (map (λ v, length (filter (λ b, inBucket b w v = true)
                                     (Lodash.baseRange_go n start w))) vs) =
                  length (filter is_Some vs)).
  { apply IH. intros q Hq. apply Hvs. by right. }
  cbn [map sum_list]. rewrite Hrest. destruct v as [q|].
  - rewrite filter_cons_True by by eexists.
    destruct (Hvs q) as [H1 H2]; [left|]. by rewrite hits_inside.
  - rewrite filter_cons_False by by intros [? ?]. by rewrite hits_undefined.
Qed.

End Hits.

Lemma histogram_count_swap (w : Q) (buckets : list Q) (vs : list (option Q)) :
  sum_list (map (λ b, length (filter (λ p, inBucket b w p = true) vs)) buckets) =
  sum_list (map (λ p, length (filter (λ b, inBucket b w p = true) buckets)) vs).
Proof.
  induction vs as [|p vs IH]; simpl.
  - induction buckets as [|b buckets IHb]; simpl; [done|]. by rewrite IHb.
  - rewrite <- IH. clear IH.
    induction buckets as [|b buckets IHb]; simpl; [done|].
    destruct (decide (inBucket b w p = true)) as [Hb|Hb].
    + rewrite !filter_cons_True by done. simpl. rewrite IHb. lia.
    + rewrite !filter_cons_False by done. simpl. rewrite IHb. lia.
Qed.

Lemma extremum_None_no_number vs :
  ¬ Exists is_Some vs → Lodash.min vs = None ∧ Lodash.max vs = None.
Proof.
  intros Hnex. unfold Lodash.min, Lodash.max. split.
  - destruct (Lodash.baseExtremum id Lodash.baseLt vs) as [r|] eqn:E; [|done].
    exfalso. apply Hnex. apply baseExtremum_elem in E as [Hin Hs].
    apply Exists_exists. by exists r.
  - destruct (Lodash.baseExtremum id Lodash.baseGt vs) as [r|] eqn:E; [|done].
    exfalso. apply Hnex. apply baseExtremum_elem in E as [Hin Hs].
    apply Exists_exists. by exists r.
Qed.

(** In exact arithmetic, unless the floor of the least score and the
    ceiling of the greatest coincide, every numeric score is counted in
    exactly one bucket: the counts sum to the number of numeric scores. *)
Lemma distribution_counts_every_score (perplexityValues : list (option Q)) :
  floor (or_else (Lodash.min perplexityValues) 0%Q) ≠
    ceil (or_else (Lodash.max perplexityValues) 30%Q) →
  totalCount (distribution perplexityValues) =
    length (filter is_Some perplexityValues).
Proof.
  set (min := floor (or_else (Lodash.min perplexityValues) 0%Q)).
  set (max := ceil (or_else (Lodash.max perplexityValues) 30%Q)).
  set (bucketSize := (inject_Z (max - min) / 10)%Q).
  intros Hne.
  assert (Hdiff : (inject_Z (max - min) == inject_Z max - inject_Z min)%Q).
  { unfold Z.sub. by rewrite inject_Z_plus, inject_Z_opp. }
  assert (Hbounds : ∀ q, Some q ∈ perplexityValues →
            (inject_Z min <= q)%Q ∧ (q <= inject_Z max)%Q).
  { intros q Hq. by apply distribution_range_bounds. }
  assert (Hlt : min < max).
  { destruct (decide (Exists is_Some perplexityValues)) as [Hex|Hnex].
    - apply Exists_exists in Hex as (p & Hp & [q ->]).
      destruct (Hbounds q Hp) as [H1 H2].
      assert (Hle : (inject_Z min <= inject_Z max)%Q) by by eapply Qle_trans.
      rewrite <- Zle_Qle in Hle. lia.
    - destruct (extremum_None_no_number _ Hnex) as [Hmin Hmax].
      unfold min, max. by rewrite Hmin, Hmax. }
  assert (Hmm : (inject_Z min < inject_Z max)%Q) by by rewrite <- Zlt_Qlt.
  assert (Hw : (0 < bucketSize)%Q).
  { unfold bucketSize. rewrite Hdiff. apply Qlt_shift_div_l; [done|]. lra. }
  unfold totalCount.
  assert (Hcounts : map count (distribution perplexityValues) =
            map (λ b, length (filter (λ p, inBucket b bucketSize p = true) perplexityValues))
                (map bucket (distribution perplexityValues))).
  { unfold distribution. fold min max bucketSize. by rewrite !map_map. }
  rewrite Hcounts, distribution_buckets. fold min max bucketSize.
  rewrite decide_False by done. rewrite histogram_count_swap.
  apply hits_total; [done|]. intros q Hq. destruct (Hbounds q Hq) as [H1 H2].
  split; [done|]. apply Qle_lt_trans with (inject_Z max); [done|].
  unfold bucketSize, num_of_nat. rewrite Hdiff. simpl.
  assert (Heq : (inject_Z min + 11 * ((inject_Z max - inject_Z min) / 10) ==
                 inject_Z max + (inject_Z max - inject_Z min) / 10)%Q) by field.
  rewrite Heq. unfold bucketSize in Hw. rewrite Hdiff in Hw. lra.
Qed.

(** ** Which steps can throw *)

Lemma textOf_returns row : ∃ s, textOf row = Returns s.
Proof. unfold textOf. destruct (row_text row) as [| |[]|n|s]; simpl; eauto. Qed.

Lemma compareId_returns file1 file2 i : ∃ r, compareId file1 file2 i = Returns r.
Proof.
  unfold compareId. destruct (findRow file1 i) as [r1|]; [|by eauto].
  destruct (findRow file2 i) as [r2|]; [|by eauto].
  destruct (textOf_returns r1) as [s1 ->], (textOf_returns r2) as [s2 ->].
  simpl. eauto.
Qed.

Lemma comparison_returns files : ∃ c, comparison files = Returns c.
Proof.
  unfold comparison. destruct files as [|file1 [|file2 rest]]; [by eauto..|].
  destruct (mapM_Result_returns (compareId file1 file2)
              (Lodash.intersection [map row_id (data file1); map row_id (data file2)]))
    as (pushed & -> & _); [|simpl; by eauto].
  intros i _. apply compareId_returns.
Qed.

Lemma calculatePerplexity_returns text useRemoteApi onApiError w :
  ∃ p w', calculatePerplexity text useRemoteApi onApiError w = (Returns p, w').
Proof.
  destruct useRemoteApi; [|rewrite calculatePerplexity_local, dummyPerplexity_run; by eauto].
  destruct (backend w text (requests w)) as [|ok st payload] eqn:E.
  - rewrite calculatePerplexity_remote_caught; [by eauto|]. by rewrite E.
  - destruct ok; [destruct payload as [| |p]|].
    + rewrite calculatePerplexity_remote_caught; [by eauto|]. rewrite E. right. by left.
    + rewrite calculatePerplexity_remote_caught; [by eauto|]. rewrite E. right. by right.
    + unfold calculatePerplexity, try_catch, mbind, M_bind, fetch.
      cbn beta iota delta [negb]. rewrite E. cbn. eauto.
    + rewrite calculatePerplexity_remote_caught; [by eauto|]. rewrite E. by left.
Qed.

Lemma scoreRow_returns useRemoteApi onApiError row w :
  ∃ s w', scoreRow useRemoteApi onApiError row w = (Returns s, w').
Proof.
  unfold scoreRow, mbind, M_bind, lift.
  destruct (textOf_returns row) as [text ->].
  destruct (calculatePerplexity_returns text useRemoteApi onApiError w) as (p & w' & ->).
  cbn. eauto.
Qed.

Lemma mapM_M_returns {A B} (f : A → M B) (l : list A) :
  (∀ x w, ∃ y w', f x w = (Returns y, w')) →
  ∀ w, ∃ ys w', mapM f l w = (Returns ys, w') ∧ length ys = length l.
Proof.
  intros Hf. induction l as [|x l IH]; intros w.
  - by exists [], w.
  - destruct (Hf x w) as (y & w1 & Hy). destruct (IH w1) as (ys & w2 & Hys & Hlen).
    exists (y :: ys), w2. split; [|simpl; by rewrite Hlen].
    simpl. unfold mbind, M_bind at 1. rewrite Hy.
    unfold M_bind at 1. by rewrite Hys.
Qed.

Lemma scoreFile_returns useRemoteApi onApiError file w :
  ∃ report w', scoreFile useRemoteApi onApiError file w = (Returns report, w').
Proof.
  unfold scoreFile. unfold mbind at 1. unfold M_bind at 1.
  destruct (mapM_M_returns (scoreRow useRemoteApi onApiError) (data file)
              (scoreRow_returns useRemoteApi onApiError) w) as (ss & w' & -> & _).
  cbn. eauto.
Qed.

Lemma perplexityScores_returns useRemoteApi onApiError files w :
  ∃ reports w', perplexityScores useRemoteApi onApiError files w = (Returns reports, w').
Proof.
  destruct (mapM_M_returns (scoreFile useRemoteApi onApiError) files
              (scoreFile_returns useRemoteApi onApiError) w) as (ps & w' & H & _).
  by exists ps, w'.
Qed.

Section MapMResult.

Context {A B : Type} (f : A → Result B).

Lemma mapM_Result_Forall2 l ys :
  mapM f l = Returns ys → Forall2 (λ x y, f x = Returns y) l ys.
Proof.
  revert ys. induction l as [|x l IH]; intros ys; simpl.
  - intros [= <-]. constructor.
  - destruct (f x) as [y|e] eqn:Ex; simpl; [|done].
    destruct (mapM f l) as [ys'|e]; simpl; [|done].
    intros [= <-]. constructor; [done|]. by apply IH.
Qed.

Lemma mapM_Result_cases l :
  (∀ x, x ∈ l → (∃ y, f x = Returns y) ∨ thrown_by_toString (f x)) →
  (∃ ys, mapM f l = Returns ys) ∨ thrown_by_toString (mapM f l).
Proof.
  induction l as [|x l IH]; intros Hf; [left; by exists []|].
  simpl. destruct (Hf x) as [[y ->]|(msg & v & -> & Hv)]; [left| |right; by exists msg, v].
  simpl. destruct IH as [[ys ->]|(msg & v & -> & Hv)]; [intros; apply Hf; by right|..].
  - left. simpl. eauto.
  - right. by exists msg, v.
Qed.


End MapMResult.




Lemma analyzeFiles_run files useRemoteApi onApiError w :
  ∃ stats c reports w',
    fileStats files = Returns stats ∧
    comparison files = Returns c ∧
    perplexityScores useRemoteApi onApiError files w = (Returns reports, w') ∧
    analyzeFiles files useRemoteApi onApiError w =
      match allIds files with
      | Returns ids =>
          (Returns {| r_fileStats := stats;
                      r_comparison := c;
                      r_commonIds := length (Lodash.intersection ids);
                      r_totalUniqueIds := length (Lodash.union ids);
                      r_perplexityScores := reports;
                      r_bestTexts := bestTexts reports |}, w')
      | Throws e => (Throws e, w')
      end.
Proof.
  destruct (fileStats_returns files) as [stats Hstats].
  destruct (comparison_returns files) as [c Hc].
  destruct (perplexityScores_returns useRemoteApi onApiError files w) as (reports & w' & Hps).
  exists stats, c, reports, w'. split_and!; [done..|].
  unfold analyzeFiles, lift. unfold mbind at 1, M_bind at 1. rewrite Hstats.
  unfold mbind at 1, M_bind at 1. rewrite Hc.
  unfold mbind at 1, M_bind at 1. rewrite Hps.
  unfold mbind at 1, M_bind at 1. by destruct (allIds files).
Qed.



(** ** Ids across the datasets *)

Lemma concat_elem {A} (ls : list (list A)) (x : A) :
  x ∈ concat ls ↔ ∃ l, l ∈ ls ∧ x ∈ l.
Proof.
  induction ls as [|l ls IH]; simpl.
  - split; [by intros ?%elem_of_nil|by intros (? & ?%elem_of_nil & _)].
  - rewrite elem_of_app, IH. split.
    + intros [?|(l' & ? & ?)]; [exists l; split; [left|done]|exists l'; split; [by right|done]].
    + intros (l' & [->|?]%elem_of_cons & ?); [by left|right; by exists l'].
Qed.

Section Uniq.

Context {K : Type} {K_eq : EqDecision K} {K_countable : Countable K}.

Implicit Types (l seen : list K) (x : K).

Lemma baseUniq_elem seen l x : x ∈ Lodash.baseUniq seen l ↔ x ∈ l ∧ x ∉ seen.
Proof.
  revert seen. induction l as [|y l IH]; intros seen; simpl.
  - split; [by intros ?%elem_of_nil|by intros [?%elem_of_nil _]].
  - destruct (decide (y ∈ seen)) as [Hy|Hy].
    + rewrite IH, elem_of_cons. split; [intros [? ?]; by auto|].
      intros [[->|?] ?]; done.
    + rewrite !elem_of_cons, IH, elem_of_cons. split.
      * intros [->|[? Hx]]; [by auto|]. split; [by right|].
        intros Hs. apply Hx. by right.
      * intros [[->|?] ?]; [by left|]. destruct (decide (x = y)) as [->|]; [by left|].
        right. split; [done|]. intros [|]; done.
Qed.

Lemma baseUniq_NoDup seen l : NoDup (Lodash.baseUniq seen l).
Proof.
  revert seen. induction l as [|y l IH]; intros seen; simpl; [constructor|].
  destruct (decide (y ∈ seen)); [done|]. constructor; [|done].
  rewrite baseUniq_elem. intros [_ Hy]. apply Hy. left.
Qed.

Lemma uniq_elem l x : x ∈ Lodash.uniq l ↔ x ∈ l.
Proof.
  unfold Lodash.uniq. rewrite baseUniq_elem. split; [by intros [? _]|].
  intros ?. split; [done|]. by intros ?%elem_of_nil.
Qed.

Lemma uniq_NoDup l : NoDup (Lodash.uniq l).
Proof. apply baseUniq_NoDup. Qed.

Lemma uniq_length l : length (Lodash.uniq l) = size (list_to_set (C:=gset K) l).
Proof.
  rewrite <- (size_list_to_set (C:=gset K) (Lodash.uniq l)) by apply uniq_NoDup.
  f_equal. apply set_eq. intros x. by rewrite !elem_of_list_to_set, uniq_elem.
Qed.

Lemma elem_of_intersection_all (s : gset K) (rest : list (gset K)) x :
  x ∈ foldr (∩) s rest ↔ x ∈ s ∧ Forall (λ t, x ∈ t) rest.
Proof.
  induction rest as [|t rest IH]; simpl.
  - split; [by intros ?; split; [|constructor]|by intros [? _]].
  - rewrite elem_of_intersection, IH, Forall_cons. tauto.
Qed.

Lemma intersection_length (arrays : list (list K)) :
  length (Lodash.intersection arrays) =
    size (intersection_all (map (list_to_set (C:=gset K)) arrays)).
Proof.
  destruct arrays as [|first others]; [symmetry; apply size_empty|].
  unfold Lodash.intersection, intersection_all. simpl map. rewrite uniq_length.
  f_equal. apply set_eq. intros x.
  rewrite elem_of_list_to_set, list_elem_of_filter, elem_of_intersection_all,
    elem_of_list_to_set, Forall_fmap.
  split.
  - intros [H1 H2]. split; [done|].
    eapply Forall_impl; [done|]. intros l Hl. simpl. by rewrite elem_of_list_to_set.
  - intros [H1 H2]. split; [|done].
    eapply Forall_impl; [done|]. intros l Hl. simpl in Hl. by rewrite elem_of_list_to_set in Hl.
Qed.

Lemma union_length (arrays : list (list K)) :
  length (Lodash.union arrays) = size (⋃ (map (list_to_set (C:=gset K)) arrays)).
Proof.
  unfold Lodash.union. rewrite uniq_length. f_equal. apply set_eq. intros x.
  rewrite elem_of_list_to_set, concat_elem, elem_of_union_list. split.
  - intros (l & Hl & Hx). exists (list_to_set l). split; [|by rewrite elem_of_list_to_set].
    apply list_elem_of_fmap. by exists l.
  - intros (X & HX & Hx). apply list_elem_of_fmap in HX as (l & -> & Hl).
    exists l. split; [done|]. by rewrite elem_of_list_to_set in Hx.
Qed.

End Uniq.

Lemma rowIds_omap file ss :
  mapM (λ row, toString (row_id row)) (data file) = Returns ss →
  list_to_set ss = idStrings file.
Proof.
  intros Hss%mapM_Result_Forall2. unfold idStrings. f_equal.
  induction Hss as [|row s rows ss' Hs _ IH]; simpl; [done|].
  rewrite Hs. by rewrite IH.
Qed.

Lemma allIds_idStrings files ids :
  allIds files = Returns ids →
  map (list_to_set (C:=gset string)) ids = map idStrings files.
Proof.
  intros Hids%mapM_Result_Forall2.
  induction Hids as [|file ss files' ids' Hs _ IH]; simpl; [done|].
  by rewrite (rowIds_omap _ _ Hs), IH.
Qed.

(** C8, as stated, fails: with the ids as found in the records, a dataset
    whose only id is the number 1 and one whose only id is the string "1"
    share no id and have two ids in all (the row-by-row comparison of the
    two, which takes the ids as they are, finds no common row), but
    [commonIds] is computed on the ids' string forms and is 1, and
    [totalUniqueIds] is 1. *)
Lemma commonIds_is_not_over_ids_as_found :
  let files := [ {| name := "a.csv"; data := [ {| row_id := VNum 1; row_text := VStr "x" |} ] |};
                 {| name := "b.csv"; data := [ {| row_id := VStr "1"; row_text := VStr "x" |} ] |} ] in
  ∃ result c,
    fst (analyzeFiles files false true (offline 0)) = Returns result ∧
    r_commonIds result = 1%nat ∧
    size (intersection_all (map idSet files)) = 0%nat ∧
    r_totalUniqueIds result = 1%nat ∧
    size (⋃ (map idSet files)) = 2%nat ∧
    r_comparison result = Some c ∧ cmp_data c = [].
Proof. eexists _, _. split; [reflexivity|]. split_and!; by vm_compute. Qed.

(** C8, amended. Whenever [analyzeFiles] returns a result, its [commonIds]
    is the size of the intersection, across all the selected datasets, of
    their sets of ids in string form ([id.toString()], under which the
    number 1 and the string "1" are one id), and its [totalUniqueIds] is
    the size of the union of those sets. *)
Theorem commonIds_counts_ids_in_string_form
    (selectedFiles : list FileData) (useRemoteApi onApiError : bool) (w : World)
    (result : AnalysisResult) :
  fst (analyzeFiles selectedFiles useRemoteApi onApiError w) = Returns result →
  r_commonIds result = size (intersection_all (map idStrings selectedFiles)) ∧
  r_totalUniqueIds result = size (⋃ (map idStrings selectedFiles)).
Proof.
  destruct (analyzeFiles_run selectedFiles useRemoteApi onApiError w)
    as (stats & c & reports & w' & _ & _ & _ & ->).
  destruct (allIds selectedFiles) as [ids|e] eqn:Hids; [|done].
  intros [= <-]. simpl.
  by rewrite intersection_length, union_length, (allIds_idStrings _ _ Hids).
Qed.

Lemma commonIds_counts_ids_in_string_form_witness :
  let a := {| name := "a.csv"; data := [ {| row_id := VNum 1; row_text := VStr "x" |};
                                         {| row_id := VNum 2; row_text := VStr "y" |} ] |} in
  let b := {| name := "b.csv"; data := [ {| row_id := VNum 2; row_text := VStr "y" |} ] |} in
  let c := {| name := "c.csv"; data := [ {| row_id := VNum 2; row_text := VStr "z" |};
                                         {| row_id := VNum 3; row_text := VStr "z" |} ] |} in
  ∃ result,
    fst (analyzeFiles [a; b; c] false true (offline 0)) = Returns result ∧
    r_commonIds result = size (intersection_all (map idStrings [a; b; c])) ∧
    r_totalUniqueIds result = size (⋃ (map idStrings [a; b; c])).
Proof.
  intros a b c. eexists. split; [reflexivity|].
  exact (commonIds_counts_ids_in_string_form [a; b; c] false true (offline 0) _ eq_refl).
Defined.

(** ** The best text per id *)

Lemma filter_split {A} (P : A → Prop) `{∀ x, Decision (P x)} (l l1 l2 : list A) (x : A) :
  filter P l = l1 ++ x :: l2 →
  ∃ k1 k2, l = k1 ++ x :: k2 ∧ filter P k1 = l1 ∧ filter P k2 = l2.
Proof.
  revert l1. induction l as [|y l IH]; intros l1 Hf.
  - by destruct l1.
  - destruct (decide (P y)) as [Hy|Hy].
    + rewrite filter_cons_True in Hf by done. destruct l1 as [|z l1]; simpl in Hf.
      * injection Hf as -> <-. by exists [], l.
      * injection Hf as -> Hf. destruct (IH _ Hf) as (k1 & k2 & -> & <- & <-).
        exists (z :: k1), k2. split_and!; [done| |done]. by rewrite filter_cons_True.
    + rewrite filter_cons_False in Hf by done.
      destruct (IH _ Hf) as (k1 & k2 & -> & <- & <-).
      exists (y :: k1), k2. split_and!; [done| |done]. by rewrite filter_cons_False.
Qed.

Section BestTexts.

Implicit Types (all : list BestText) (i : value).

Lemma bestFor_spec all i best :
  bestFor all i = Some best →
  best_id best = i ∧
  ∃ m pre post,
    best_perplexity best = Some m ∧ all = pre ++ best :: post ∧
    (∀ s q, s ∈ all → best_id s = i → best_perplexity s = Some q → (m <= q)%Q) ∧
    (∀ s q, s ∈ pre → best_id s = i → best_perplexity s = Some q → (m < q)%Q).
Proof.
  intros Hbest. unfold bestFor, Lodash.minBy in Hbest.
  pose proof (baseExtremum_elem _ _ _ _ Hbest) as [[Hid _]%list_elem_of_filter _].
  split; [done|].
  apply (baseExtremum_spec _ _ baseLt_asym baseLt_le_trans baseLt_lt_le) in Hbest
    as (m & pre' & post' & Hm & Hsplit & Hall & Hpre).
  apply filter_split in Hsplit as (pre & post & -> & <- & _).
  exists m, pre, post. split_and!; [done..| |].
  - intros s q Hs Hi Hq. apply Qltb_false, (Hall s); [|done]. by apply list_elem_of_filter.
  - intros s q Hs Hi Hq. apply Qltb_true, (Hpre s); [|done]. by apply list_elem_of_filter.
Qed.

Lemma bestFor_is_Some all i s q :
  s ∈ all → best_id s = i → best_perplexity s = Some q → is_Some (bestFor all i).
Proof.
  intros Hs Hi Hq. unfold bestFor, Lodash.minBy.
  destruct (Lodash.baseExtremum _ _ _) eqn:E; [by eauto|].
  apply baseExtremum_None in E. rewrite Forall_forall in E.
  assert (best_perplexity s = None); [|congruence].
  apply E. by apply list_elem_of_filter.
Qed.

Lemma filter_omap_key (f : value → option BestText) (ids : list value) i :
  (∀ j b, f j = Some b → best_id b = j) →
  NoDup ids →
  filter (λ b, best_id b = i) (omap f ids) =
    if decide (i ∈ ids) then match f i with Some b => [b] | None => [] end else [].
Proof.
  intros Hkey. induction 1 as [|j ids Hj Hnd IH]; [done|].
  destruct (decide (j = i)) as [->|Hne].
  - rewrite decide_True by left. rewrite decide_False in IH by done.
    simpl. destruct (f i) as [b|] eqn:Eb; [|done].
    rewrite filter_cons_True by by apply Hkey. f_equal. exact IH.
  - assert (Hiff : filter (λ b, best_id b = i) (omap f (j :: ids)) =
                   filter (λ b, best_id b = i) (omap f ids)).
    { simpl. destruct (f j) as [b|] eqn:Eb; [|reflexivity].
      rewrite filter_cons_False; [reflexivity|]. rewrite (Hkey _ _ Eb). done. }
    rewrite Hiff, IH.
    destruct (decide (i ∈ ids)) as [Hin|Hin].
    + rewrite decide_True; [done|by right].
    + rewrite decide_False; [done|]. intros [?|?]%elem_of_cons; done.
Qed.

Lemma bestTexts_entry (reports : list PerplexityScore) i s q :
  s ∈ allScores reports → best_id s = i → best_perplexity s = Some q →
  ∃ best m pre post,
    filter (λ b, best_id b = i) (bestTexts reports) = [best] ∧
    best_id best = i ∧
    best_perplexity best = Some m ∧
    allScores reports = pre ++ best :: post ∧
    (∀ s q, s ∈ allScores reports → best_id s = i → best_perplexity s = Some q → (m <= q)%Q) ∧
    (∀ s q, s ∈ pre → best_id s = i → best_perplexity s = Some q → (m < q)%Q).
Proof.
  intros Hs Hi Hq.
  destruct (bestFor_is_Some _ _ _ _ Hs Hi Hq) as [best Hbest].
  destruct (bestFor_spec _ _ _ Hbest) as (Hid & m & pre & post & Hm & Hsplit & Hall & Hpre).
  exists best, m, pre, post. split_and!; [|done..].
  unfold bestTexts. rewrite filter_omap_key.
  - rewrite Hbest, decide_True; [done|].
    apply uniq_elem, list_elem_of_fmap. by exists s.
  - intros j b Hb. by apply bestFor_spec in Hb as [? _].
  - apply uniq_NoDup.
Qed.

Lemma allScores_elem (reports : list PerplexityScore) b :
  b ∈ allScores reports ↔
  ∃ report score, report ∈ reports ∧ score ∈ scores report ∧
    b = {| best_id := score_id score; best_text := score_text score;
           best_perplexity := perplexity score; source := score_name report |}.
Proof.
  unfold allScores. rewrite concat_elem. split.
  - intros (l & Hl & Hb). apply list_elem_of_fmap in Hl as (report & -> & Hr).
    apply list_elem_of_fmap in Hb as (score & -> & Hscore). by exists report, score.
  - intros (report & score & Hr & Hscore & ->). eexists. split.
    + apply list_elem_of_fmap. by exists report.
    + apply list_elem_of_fmap. by exists score.
Qed.

Lemma allScores_rev (reports : list PerplexityScore) b :
  b ∈ allScores (reverse reports) ↔ b ∈ allScores reports.
Proof.
  rewrite !allScores_elem. by setoid_rewrite elem_of_reverse.
Qed.

End BestTexts.

Lemma allScores_cons (report : PerplexityScore) (reports : list PerplexityScore) :
  allScores (report :: reports) =
    map (withSource report) (scores report) ++ allScores reports.
Proof. reflexivity. Qed.

Lemma allScores_ids (reports : list PerplexityScore) :
  map best_id (allScores reports) =
    concat (map (λ report, map score_id (scores report)) reports).
Proof.
  induction reports as [|report reports IH]; [done|].
  rewrite allScores_cons, map_app, IH. cbn [map concat]. f_equal.
  by rewrite map_map.
Qed.

(** Where an entry of the flattened scores comes from: a score of a
    report, after the scores of the reports before it and the scores
    before it in its own report. *)
Lemma allScores_split (reports : list PerplexityScore) (pre post : list BestText)
    (best : BestText) :
  allScores reports = pre ++ best :: post →
  ∃ pre_r r0 post_r pre_s s0 post_s,
    reports = pre_r ++ r0 :: post_r ∧ scores r0 = pre_s ++ s0 :: post_s ∧
    best = withSource r0 s0 ∧
    pre = allScores pre_r ++ map (withSource r0) pre_s.
Proof.
  revert pre. induction reports as [|r rs IH]; intros pre Hsplit.
  - by destruct pre.
  - rewrite allScores_cons in Hsplit.
    apply app_eq_inv in Hsplit as [(k & Hk1 & Hk2)|(k & Hk1 & Hk2)].
    + destruct k as [|b k'].
      * rewrite app_nil_r in Hk1. simpl in Hk2.
        destruct (IH [] (eq_sym Hk2))
          as (pre_r & r0 & post_r & pre_s & s0 & post_s & -> & Hs & -> & Hpre).
        exists (r :: pre_r), r0, post_r, pre_s, s0, post_s.
        split_and!; [done..|]. rewrite allScores_cons, <- app_assoc, <- Hpre, app_nil_r.
        by rewrite Hk1.
      * injection Hk2 as <- ->.
        apply fmap_app_inv in Hk1 as (l1 & l2 & -> & Hl2 & Hscores).
        symmetry in Hl2. apply fmap_cons_inv in Hl2 as (s0 & l2' & -> & -> & ->).
        exists [], r, rs, l1, s0, l2'. by split_and!.
    + destruct (IH k Hk2)
        as (pre_r & r0 & post_r & pre_s & s0 & post_s & -> & Hs & -> & Hpre).
      exists (r :: pre_r), r0, post_r, pre_s, s0, post_s.
      split_and!; [done..|]. by rewrite allScores_cons, <- app_assoc, <- Hpre.
Qed.

(** C6, as stated, fails: an id whose only recorded score is [undefined]
    (the backend answered 2xx without a [perplexity] field) is present in
    a report and has no entry among the best texts. *)
Lemma bestTexts_omits_id_without_score :
  let A := {| name := "a.csv";
              data := [ {| row_id := VNum 1; row_text := VStr "the cat" |} ] |} in
  let w := answering (Response true "OK" (JsonData None)) 0 in
  ∃ result,
    fst (analyzeFiles [A] true true w) = Returns result ∧
    (∃ report score, report ∈ r_perplexityScores result ∧ score ∈ scores report ∧
       score_id score = VNum 1 ∧ perplexity score = None) ∧
    r_bestTexts result = [].
Proof.
  intros A w. eexists. split; [by vm_compute|]. split; [|reflexivity].
  eexists _, _. split_and!; [left|left|reflexivity|reflexivity].
Qed.

(** C6, amended. Take any score reports and any id. If some report
    records a numeric score for the id (every id that occurs, when the
    scores are numbers), [bestTexts] has exactly one entry for it: a score
    of one of the reports, with that report's name as its source; its
    score is at most every score recorded for the id in any report; it is
    the first such record in the order of the reports and then of their
    records (every record of the id in an earlier report, or earlier in
    the same report, has a strictly greater score); and with the reports
    given in reversed order the entry for the id has the same score.  If
    every score recorded for the id is [undefined], [bestTexts] has no
    entry for it. *)
Theorem bestTexts_selects_first_minimum (reports : list PerplexityScore) (i : value) :
  ((∃ report score q,
      report ∈ reports ∧ score ∈ scores report ∧
      score_id score = i ∧ perplexity score = Some q) →
   ∃ best m,
     filter (λ b, best_id b = i) (bestTexts reports) = [best] ∧
     best_id best = i ∧ best_perplexity best = Some m ∧
     (∀ r s q', r ∈ reports → s ∈ scores r → score_id s = i →
                perplexity s = Some q' → (m <= q')%Q) ∧
     (∃ pre_r r0 post_r pre_s s0 post_s,
        reports = pre_r ++ r0 :: post_r ∧ scores r0 = pre_s ++ s0 :: post_s ∧
        best = withSource r0 s0 ∧
        (∀ r s q', r ∈ pre_r → s ∈ scores r → score_id s = i →
                   perplexity s = Some q' → (m < q')%Q) ∧
        (∀ s q', s ∈ pre_s → score_id s = i → perplexity s = Some q' → (m < q')%Q)) ∧
     (∃ best' m',
        filter (λ b, best_id b = i) (bestTexts (reverse reports)) = [best'] ∧
        best_perplexity best' = Some m' ∧ (m' == m)%Q)) ∧
  ((∀ report score, report ∈ reports → score ∈ scores report →
      score_id score = i → perplexity score = None) →
   filter (λ b, best_id b = i) (bestTexts reports) = []).
Proof.
  split.
  - intros (report & score & q & Hr & Hscore & Hid & Hq).
    assert (Hs : withSource report score ∈ allScores reports).
    { apply allScores_elem. by exists report, score. }
    destruct (bestTexts_entry reports i (withSource report score) q Hs Hid Hq)
      as (best & m & pre & post & Hfilter & Hbid & Hm & Hsplit & Hall & Hpre).
    destruct (bestTexts_entry (reverse reports) i (withSource report score) q) as
      (best' & m' & pre' & post' & Hfilter' & Hbid' & Hm' & Hsplit' & Hall' & _);
      [by apply allScores_rev|done..|].
    exists best, m. split_and!; [done..| | |].
    + intros r s q' Hr' Hs' Hi' Hq'. apply (Hall (withSource r s)); [|done..].
      apply allScores_elem. by exists r, s.
    + destruct (allScores_split _ _ _ _ Hsplit)
        as (pre_r & r0 & post_r & pre_s & s0 & post_s & Hreports & Hscores & Hbest & Hpre_eq).
      exists pre_r, r0, post_r, pre_s, s0, post_s. split_and!; [done..| |].
      * intros r s q' Hr' Hs' Hi' Hq'. apply (Hpre (withSource r s)); [|done..].
        rewrite Hpre_eq. apply elem_of_app. left. apply allScores_elem. by exists r, s.
      * intros s q' Hs' Hi' Hq'. apply (Hpre (withSource r0 s)); [|done..].
        rewrite Hpre_eq. apply elem_of_app. right. apply list_elem_of_fmap. by exists s.
    + exists best', m'. split_and!; [done..|].
      apply Qle_antisym.
      * apply (Hall' best); [|done..]. apply allScores_rev. rewrite Hsplit.
        apply elem_of_app. right. left.
      * apply (Hall best'); [|done..]. apply allScores_rev. rewrite Hsplit'.
        apply elem_of_app. right. left.
  - intros Hnone. unfold bestTexts. rewrite filter_omap_key.
    + case_decide; [|done].
      destruct (bestFor (allScores reports) i) as [best|] eqn:Hbest; [|done].
      exfalso. apply bestFor_spec in Hbest
        as (Hid & m & pre & post & Hm & Hsplit & _).
      assert (Hin : best ∈ allScores reports).
      { rewrite Hsplit. apply elem_of_app. right. left. }
      apply allScores_elem in Hin as (report & score & Hr & Hs & ->).
      simpl in Hid, Hm. by rewrite (Hnone report score Hr Hs Hid) in Hm.
    + intros j b Hb. by apply bestFor_spec in Hb as [? _].
    + apply uniq_NoDup.
Qed.

Lemma bestTexts_selects_first_minimum_witness :
  let reports :=
    [ {| score_name := "a.csv"; avgPerplexity := Num 7;
         scores := [ {| score_id := VNum 1; score_text := "x"; perplexity := Some 7%Q |} ];
         distribution_of := [] |};
      {| score_name := "b.csv"; avgPerplexity := Num 6;
         scores := [ {| score_id := VNum 2; score_text := "y"; perplexity := Some 7%Q |};
                     {| score_id := VNum 1; score_text := "z"; perplexity := Some 5%Q |} ];
         distribution_of := [] |} ] in
  ∃ best m,
    filter (λ b, best_id b = VNum 1) (bestTexts reports) = [best] ∧
    best_id best = VNum 1 ∧ best_perplexity best = Some m ∧
    (∀ r s q', r ∈ reports → s ∈ scores r → score_id s = VNum 1 →
               perplexity s = Some q' → (m <= q')%Q) ∧
    (∃ pre_r r0 post_r pre_s s0 post_s,
       reports = pre_r ++ r0 :: post_r ∧ scores r0 = pre_s ++ s0 :: post_s ∧
       best = withSource r0 s0 ∧
       (∀ r s q', r ∈ pre_r → s ∈ scores r → score_id s = VNum 1 →
                  perplexity s = Some q' → (m < q')%Q) ∧
       (∀ s q', s ∈ pre_s → score_id s = VNum 1 → perplexity s = Some q' → (m < q')%Q)) ∧
    (∃ best' m',
       filter (λ b, best_id b = VNum 1) (bestTexts (reverse reports)) = [best'] ∧
       best_perplexity best' = Some m' ∧ (m' == m)%Q).
Proof.
  intros reports.
  apply (proj1 (bestTexts_selects_first_minimum reports (VNum 1))).
  eexists _, _, 7%Q. split_and!; [left|left|reflexivity|reflexivity].
Defined.

(** The [bestTexts] of a result are those of its score reports. *)
Lemma analyzeFiles_bestTexts files useRemoteApi onApiError w result :
  fst (analyzeFiles files useRemoteApi onApiError w) = Returns result →
  r_bestTexts result = bestTexts (r_perplexityScores result).
Proof.
  destruct (analyzeFiles_run files useRemoteApi onApiError w)
    as (stats & c & reports & w' & _ & _ & _ & ->).
  destruct (allIds files); [|done]. by intros [= <-].
Qed.

(** The example of two datasets that differ in one word. *)
Example comparison_of_two_datasets :
  let A := {| name := "A"; data := [ {| row_id := VNum 1; row_text := VStr "the cat sat" |};
                                     {| row_id := VNum 2; row_text := VStr "the dog ran" |} ] |} in
  let B := {| name := "B"; data := [ {| row_id := VNum 1; row_text := VStr "the cat sat" |};
                                     {| row_id := VNum 2; row_text := VStr "a dog ran" |} ] |} in
  ∃ c, comparison [A; B] = Returns (Some c) ∧
       map (λ row, (cmp_id row, cmp_textsDifferent row, cmp_wordsMatch row)) (cmp_data c) =
         [(VNum 1, false, true); (VNum 2, true, false)] ∧
       differentTexts c = 1%nat ∧ sameWords c = 1%nat.
Proof. eexists. split; [by vm_compute|]. by vm_compute. Qed.

(** * Further properties *)

(** ** The scorer: range, pass-through and resources *)

Lemma Set_size_pos (l : list string) : l ≠ [] → (0 < Set_size l)%nat.
Proof.
  induction l as [|x l IH]; [done|]. intros _. rewrite Set_size_cons.
  destruct (decide (x ∈ l)) as [Hx|Hx]; [|lia].
  apply IH. intros ->. by apply elem_of_nil in Hx.
Qed.

Lemma entropy_bounds text : (0 < entropy text)%Q ∧ (entropy text <= 1)%Q.
Proof.
  unfold entropy.
  pose proof (Set_size_le (split " " (toLowerCase text))) as Hle.
  pose proof (Set_size_pos (split " " (toLowerCase text)) (split_not_nil _ _)) as Hpos.
  rewrite toLowerCase_split_length in Hle.
  assert (Hw : (0 < num_of_nat (length (split " " text)))%Q) by (apply num_of_nat_pos; lia).
  split.
  - apply Qlt_shift_div_l; [done|]. rewrite Qmult_0_l. by apply num_of_nat_pos.
  - apply Qle_shift_div_r; [done|]. rewrite Qmult_1_l.
    unfold num_of_nat. rewrite <- Zle_Qle. lia.
Qed.

(** X1. With draws in [0, 1) the local strategy returns a number in
    [5, 30) (in exact arithmetic); it takes one draw, sends no request and
    logs nothing. *)
Theorem calculatePerplexity_local_range (text : string) (onApiError : bool) (w : World) :
  random_ok w →
  ∃ q w',
    calculatePerplexity text false onApiError w = (Returns (Some q), w') ∧
    (5 <= q)%Q ∧ (q < 30)%Q ∧
    requests w' = requests w ∧ draws w' = S (draws w) ∧ trace w' = trace w.
Proof.
  intros Hok. rewrite calculatePerplexity_local, dummyPerplexity_run.
  eexists _, _. split; [reflexivity|]. simpl.
  destruct (entropy_bounds text) as [He0 He1].
  destruct (Hok (draws w)) as [Hu0 Hu1].
  split_and!; [| |done..]; nra.
Qed.

Lemma calculatePerplexity_local_range_witness :
  random_ok (offline (1 # 2)) ∧
  ∃ q w',
    calculatePerplexity "a a b" false true (offline (1 # 2)) = (Returns (Some q), w') ∧
    (5 <= q)%Q ∧ (q < 30)%Q ∧
    requests w' = requests (offline (1 # 2)) ∧ draws w' = S (draws (offline (1 # 2))) ∧
    trace w' = trace (offline (1 # 2)).
Proof.
  assert (Hok : random_ok (offline (1 # 2))) by (by apply offline_random_ok).
  split; [exact Hok|].
  exact (calculatePerplexity_local_range "a a b" true (offline (1 # 2)) Hok).
Defined.

Lemma calculatePerplexity_remote_returned
    (text : string) (onApiError : bool) (w : World) (statusText : string) (p : option Q) :
  backend w text (requests w) = Response true statusText (JsonData p) →
  calculatePerplexity text true onApiError w =
    (Returns p,
     {| backend := backend w; requests := S (requests w); random := random w;
        draws := draws w; trace := trace w |}).
Proof.
  intros Hb. unfold calculatePerplexity, try_catch, mbind, M_bind, fetch.
  cbn beta iota delta [negb]. by rewrite Hb.
Qed.

(** X2. A 2xx response with a JSON body is passed through: the remote
    strategy returns the body's [perplexity] as it is ([undefined] when the
    field is absent), after one request, with no draw, no log and no call
    of the callback. *)
Theorem calculatePerplexity_remote_pass_through
    (text : string) (onApiError : bool) (w : World) (statusText : string) (p : option Q) :
  backend w text (requests w) = Response true statusText (JsonData p) →
  ∃ w',
    calculatePerplexity text true onApiError w = (Returns p, w') ∧
    requests w' = S (requests w) ∧ draws w' = draws w ∧ trace w' = trace w.
Proof.
  intros Hb. rewrite (calculatePerplexity_remote_returned _ _ _ _ _ Hb).
  by eexists.
Qed.

Lemma calculatePerplexity_remote_pass_through_witness :
  let w := answering (Response true "OK" (JsonData (Some 12%Q))) (1 # 2) in
  backend w "a a" (requests w) = Response true "OK" (JsonData (Some 12%Q)) ∧
  ∃ w',
    calculatePerplexity "a a" true true w = (Returns (Some 12%Q), w') ∧
    requests w' = S (requests w) ∧ draws w' = draws w ∧ trace w' = trace w.
Proof.
  intros w. split; [reflexivity|].
  exact (calculatePerplexity_remote_pass_through "a a" true w "OK" (Some 12%Q) eq_refl).
Defined.

Lemma calculatePerplexity_effects
    (text : string) (useRemoteApi onApiError : bool) (w : World) :
  ∃ p w',
    calculatePerplexity text useRemoteApi onApiError w = (Returns p, w') ∧
    requests w' = (requests w + (if useRemoteApi then 1 else 0))%nat ∧
    (draws w <= draws w' <= S (draws w))%nat ∧
    backend w' = backend w ∧ random w' = random w.
Proof.
  destruct useRemoteApi.
  - destruct (backend w text (requests w)) as [|ok st payload] eqn:E.
    + rewrite calculatePerplexity_remote_caught by by rewrite E.
      eexists _, _. split; [reflexivity|]. simpl. split_and!; [lia|lia|lia|done..].
    + destruct ok; [destruct payload as [| |p]|].
      * rewrite calculatePerplexity_remote_caught by (rewrite E; right; by left).
        eexists _, _. split; [reflexivity|]. simpl. split_and!; [lia|lia|lia|done..].
      * rewrite calculatePerplexity_remote_caught by (rewrite E; right; by right).
        eexists _, _. split; [reflexivity|]. simpl. split_and!; [lia|lia|lia|done..].
      * rewrite (calculatePerplexity_remote_returned _ _ _ _ _ E).
        eexists _, _. split; [reflexivity|]. simpl. split_and!; [lia|lia|lia|done..].
      * rewrite calculatePerplexity_remote_caught by (rewrite E; by left).
        eexists _, _. split; [reflexivity|]. simpl. split_and!; [lia|lia|lia|done..].
  - rewrite calculatePerplexity_local, dummyPerplexity_run.
    eexists _, _. split; [reflexivity|]. simpl. split_and!; [lia|lia|lia|done..].
Qed.

(** X3. Whatever the backend does, [calculatePerplexity] returns and does
    not throw; it sends exactly one request under the remote strategy and
    none under the local one, takes at most one draw, and leaves the
    oracles as they were. *)
Theorem calculatePerplexity_never_throws
    (text : string) (useRemoteApi onApiError : bool) (w : World) :
  ∃ p w',
    calculatePerplexity text useRemoteApi onApiError w = (Returns p, w') ∧
    requests w' = (requests w + (if useRemoteApi then 1 else 0))%nat ∧
    (draws w <= draws w' <= S (draws w))%nat ∧
    backend w' = backend w ∧ random w' = random w.
Proof. apply calculatePerplexity_effects. Qed.

(** ** Statistics: least, greatest and mean word count *)

Section NatOrder.

Lemma baseLt_nat_asym x y : Lodash.baseLt_nat x y = true → Lodash.baseLt_nat y x = false.
Proof. unfold Lodash.baseLt_nat. rewrite Nat.ltb_lt, Nat.ltb_ge. lia. Qed.

Lemma baseLt_nat_le_trans x y z :
  Lodash.baseLt_nat y x = false → Lodash.baseLt_nat z y = false →
  Lodash.baseLt_nat z x = false.
Proof. unfold Lodash.baseLt_nat. rewrite !Nat.ltb_ge. lia. Qed.

Lemma baseLt_nat_lt_le x y z :
  Lodash.baseLt_nat x y = true → Lodash.baseLt_nat z y = false →
  Lodash.baseLt_nat x z = true.
Proof. unfold Lodash.baseLt_nat. rewrite !Nat.ltb_lt, Nat.ltb_ge. lia. Qed.

Lemma baseGt_nat_asym x y : Lodash.baseGt_nat x y = true → Lodash.baseGt_nat y x = false.
Proof. unfold Lodash.baseGt_nat. rewrite Nat.ltb_lt, Nat.ltb_ge. lia. Qed.

Lemma baseGt_nat_le_trans x y z :
  Lodash.baseGt_nat y x = false → Lodash.baseGt_nat z y = false →
  Lodash.baseGt_nat z x = false.
Proof. unfold Lodash.baseGt_nat. rewrite !Nat.ltb_ge. lia. Qed.

Lemma baseGt_nat_lt_le x y z :
  Lodash.baseGt_nat x y = true → Lodash.baseGt_nat z y = false →
  Lodash.baseGt_nat x z = true.
Proof. unfold Lodash.baseGt_nat. rewrite !Nat.ltb_lt, Nat.ltb_ge. lia. Qed.

End NatOrder.

Lemma min_nat_spec (l : list nat) :
  l ≠ [] → ∃ m, Lodash.min_nat l = Some m ∧ m ∈ l ∧ Forall (λ n, (m <= n)%nat) l.
Proof.
  intros Hl. unfold Lodash.min_nat.
  destruct (Lodash.baseExtremum Some Lodash.baseLt_nat l) as [m|] eqn:E.
  - exists m. split; [done|].
    pose proof (baseExtremum_elem _ _ _ _ E) as [Hin _]. split; [done|].
    apply (baseExtremum_spec _ _ baseLt_nat_asym baseLt_nat_le_trans baseLt_nat_lt_le) in E
      as (m' & pre & post & [= <-] & _ & Hall & _).
    apply Forall_forall. intros n Hn. specialize (Hall n n Hn eq_refl).
    unfold Lodash.baseLt_nat in Hall. apply Nat.ltb_ge in Hall. lia.
  - apply baseExtremum_None in E. destruct l as [|n l]; [done|].
    by apply Forall_cons in E as [? _].
Qed.

Lemma max_nat_spec (l : list nat) :
  l ≠ [] → ∃ m, Lodash.max_nat l = Some m ∧ m ∈ l ∧ Forall (λ n, (n <= m)%nat) l.
Proof.
  intros Hl. unfold Lodash.max_nat.
  destruct (Lodash.baseExtremum Some Lodash.baseGt_nat l) as [m|] eqn:E.
  - exists m. split; [done|].
    pose proof (baseExtremum_elem _ _ _ _ E) as [Hin _]. split; [done|].
    apply (baseExtremum_spec _ _ baseGt_nat_asym baseGt_nat_le_trans baseGt_nat_lt_le) in E
      as (m' & pre & post & [= <-] & _ & Hall & _).
    apply Forall_forall. intros n Hn. specialize (Hall n n Hn eq_refl).
    unfold Lodash.baseGt_nat in Hall. apply Nat.ltb_ge in Hall. lia.
  - apply baseExtremum_None in E. destruct l as [|n l]; [done|].
    by apply Forall_cons in E as [? _].
Qed.

Lemma or_else_nat (m : nat) : or_else (Some m) 0%nat = m.
Proof. by destruct m. Qed.

Lemma fileStat_fields file lens :
  textLengths file = Returns lens →
  fileStat file =
    Returns {| stats_name := name file;
               rowCount := length (data file);
               avgWordCount :=
                 parseFloat (toFixed2 (Lodash.mean (map (λ n, Some (num_of_nat n)) lens)));
               maxWordCount := or_else (Lodash.max_nat lens) 0%nat;
               minWordCount := or_else (Lodash.min_nat lens) 0%nat |}.
Proof. intros H. unfold fileStat. by rewrite H. Qed.

(** X4. The statistics of a dataset bracket its word counts: every
    record's word count lies between [minWordCount] and [maxWordCount],
    and, unless the dataset has no record, both are the word count of some
    record. *)
Theorem fileStat_min_max (file : FileData) :
  ∃ stats lens,
    fileStat file = Returns stats ∧
    textLengths file = Returns lens ∧
    length lens = length (data file) ∧
    Forall (λ n, (minWordCount stats <= n <= maxWordCount stats)%nat) lens ∧
    (data file = [] ∨ (minWordCount stats ∈ lens ∧ maxWordCount stats ∈ lens)).
Proof.
  destruct (textLengths_returns file) as (lens & Hlens & Hlen).
  eexists _, lens. split; [by apply fileStat_fields|]. split; [done|]. split; [done|].
  simpl. destruct (decide (lens = [])) as [->|Hne].
  - split; [constructor|]. left. by destruct (data file).
  - destruct (min_nat_spec _ Hne) as (lo & -> & Hlo & Hmin).
    destruct (max_nat_spec _ Hne) as (hi & -> & Hhi & Hmax).
    rewrite !or_else_nat. split; [|by right].
    apply Forall_forall. intros n Hn. rewrite Forall_forall in Hmin, Hmax.
    split; [by apply Hmin|by apply Hmax].
Qed.

Lemma baseSum_from (acc : Q) (lens : list nat) :
  ∃ s, foldl (λ result current,
                match current, result with
                | None, _ => result
                | Some c, None => Some c
                | Some c, Some r => Some (r + c)%Q
                end) (Some acc) (map (λ n, Some (num_of_nat n)) lens) = Some s ∧
       (s == acc + num_of_nat (sum_list lens))%Q.
Proof.
  revert acc. induction lens as [|n lens IH]; intros acc; simpl.
  - exists acc. split; [done|]. unfold num_of_nat. simpl. ring.
  - destruct (IH (acc + num_of_nat n)%Q) as (s & -> & Hs). exists s. split; [done|].
    rewrite Hs. unfold num_of_nat. rewrite Nat2Z.inj_add, inject_Z_plus. ring.
Qed.

Lemma mean_of_counts (lens : list nat) :
  lens ≠ [] →
  ∃ s, Lodash.mean (map (λ n, Some (num_of_nat n)) lens) =
         Num (s / num_of_nat (length lens))%Q ∧
       (s == num_of_nat (sum_list lens))%Q.
Proof.
  destruct lens as [|n lens]; [done|]. intros _.
  unfold Lodash.mean, Lodash.baseSum. cbn [map foldl].
  destruct (baseSum_from (num_of_nat n) lens) as (s & -> & Hs).
  exists s. split; [cbn [length]; by rewrite length_map|].
  rewrite Hs. unfold num_of_nat.
  change (sum_list (n :: lens)) with (n + sum_list lens)%nat.
  rewrite Nat2Z.inj_add, inject_Z_plus. ring.
Qed.

Lemma sum_list_bounds (lens : list nat) (lo hi : nat) :
  Forall (λ n, (lo <= n <= hi)%nat) lens →
  (length lens * lo <= sum_list lens <= length lens * hi)%nat.
Proof.
  induction 1 as [|n lens [H1 H2] _ IH]; simpl; lia.
Qed.

(** X5. On a dataset with at least one record [avgWordCount] is a number,
    not [NaN]: a whole number of hundredths that (in exact arithmetic)
    lies between [minWordCount] and [maxWordCount]. *)
Theorem fileStat_avg_between (file : FileData) :
  data file ≠ [] →
  ∃ stats h,
    fileStat file = Returns stats ∧
    avgWordCount stats = Num (h # 100) ∧
    100 * Z.of_nat (minWordCount stats) <= h <= 100 * Z.of_nat (maxWordCount stats).
Proof.
  intros Hdata.
  destruct (textLengths_returns file) as (lens & Hlens & Hlen).
  assert (Hne : lens ≠ []).
  { intros ->. destruct (data file); [done|discriminate]. }
  destruct (min_nat_spec _ Hne) as (lo & Hlo & _ & Hmin).
  destruct (max_nat_spec _ Hne) as (hi & Hhi & _ & Hmax).
  destruct (mean_of_counts _ Hne) as (s & Hmean & Hs).
  eexists _, _. split; [by apply fileStat_fields|].
  cbn [avgWordCount minWordCount maxWordCount].
  rewrite Hmean, Hlo, Hhi, !or_else_nat. cbn [toFixed2 parseFloat].
  assert (Hbounds : Forall (λ n, (lo <= n <= hi)%nat) lens).
  { apply Forall_forall. intros n Hn. rewrite Forall_forall in Hmin, Hmax.
    split; [by apply Hmin|by apply Hmax]. }
  apply sum_list_bounds in Hbounds.
  assert (Hpos : (0 < num_of_nat (length lens))%Q).
  { apply num_of_nat_pos. destruct lens; [done|simpl; lia]. }
  set (q := (s / num_of_nat (length lens))%Q).
  assert (Hq : (num_of_nat lo <= q)%Q ∧ (q <= num_of_nat hi)%Q).
  { unfold q. split.
    - apply Qle_shift_div_l; [done|]. rewrite Hs. unfold num_of_nat.
      rewrite <- inject_Z_mult, <- Zle_Qle. lia.
    - apply Qle_shift_div_r; [done|]. rewrite Hs. unfold num_of_nat.
      rewrite <- inject_Z_mult, <- Zle_Qle. lia. }
  destruct Hq as [Hq1 Hq2].
  assert (Hq0 : (0 <= q)%Q).
  { eapply Qle_trans; [|exact Hq1]. unfold num_of_nat. rewrite <- (Zle_Qle 0). lia. }
  assert (Hle : Qle_bool 0 q = true) by by apply Qle_bool_iff.
  rewrite Hle. split; [done|].
  assert (Habs : (Qabs q == q)%Q) by by apply Qabs_pos.
  fold q. revert Habs. generalize (Qabs q). intros a Habs.
  unfold num_of_nat in Hq1, Hq2. split.
  - rewrite <- (Qfloor_Z (100 * Z.of_nat lo)). apply Qfloor_resp_le.
    rewrite inject_Z_mult. change (inject_Z 100) with 100%Q. lra.
  - assert (Hlt : (inject_Z (Qfloor (a * 100 + (1 # 2))) <
                   inject_Z (100 * Z.of_nat hi + 1))%Q).
    { eapply Qle_lt_trans; [apply Qfloor_le|].
      rewrite inject_Z_plus, inject_Z_mult.
      change (inject_Z 100) with 100%Q. change (inject_Z 1) with 1%Q. lra. }
    rewrite <- Zlt_Qlt in Hlt. lia.
Qed.

Lemma fileStat_avg_between_witness :
  let file := {| name := "a.csv";
                 data := [ {| row_id := VNum 1; row_text := VStr "the cat sat" |};
                           {| row_id := VNum 2; row_text := VStr "a dog" |} ] |} in
  data file ≠ [] ∧
  ∃ stats h,
    fileStat file = Returns stats ∧
    avgWordCount stats = Num (h # 100) ∧
    100 * Z.of_nat (minWordCount stats) <= h <= 100 * Z.of_nat (maxWordCount stats).
Proof.
  intros file. assert (H : data file ≠ []) by done.
  split; [exact H|]. exact (fileStat_avg_between file H).
Defined.

(** ** The comparison of the first two datasets *)


Lemma findRow_is_Some file i : i ∈ map row_id (data file) → is_Some (findRow file i).
Proof.
  unfold findRow. induction (data file) as [|x l IH]; simpl.
  - by intros ?%elem_of_nil.
  - destruct (bool_decide (row_id x = i)) eqn:E; [by eauto|].
    apply bool_decide_eq_false in E. intros [?|?]%elem_of_cons; [done|by apply IH].
Qed.

Lemma intersection_two_elem (l1 l2 : list value) x :
  x ∈ Lodash.intersection [l1; l2] ↔ x ∈ l1 ∧ x ∈ l2.
Proof.
  unfold Lodash.intersection. rewrite uniq_elem, list_elem_of_filter, Forall_singleton.
  tauto.
Qed.

Lemma compareId_found file1 file2 i :
  i ∈ map row_id (data file1) → i ∈ map row_id (data file2) →
  ∃ row, compareId file1 file2 i = Returns (Some row) ∧
         cmp_id row = i ∧ row_of_first_matches file1 file2 row.
Proof.
  intros [r1 H1]%findRow_is_Some [r2 H2]%findRow_is_Some.
  unfold compareId. rewrite H1, H2.
  destruct (textOf_returns r1) as [t1 Ht1], (textOf_returns r2) as [t2 Ht2].
  rewrite Ht1, Ht2. eexists. split; [reflexivity|]. split; [done|].
  exists r1, r2. done.
Qed.

Lemma pushed_rows file1 file2 (ids : list value) pushed :
  Forall (λ i, i ∈ map row_id (data file1) ∧ i ∈ map row_id (data file2)) ids →
  mapM (compareId file1 file2) ids = Returns pushed →
  map cmp_id (omap id pushed) = ids ∧
  Forall (row_of_first_matches file1 file2) (omap id pushed).
Proof.
  intros Hids Hm%mapM_Result_Forall2. revert Hids.
  induction Hm as [|i y ids pushed Hy _ IH]; intros Hids; [by split; [|constructor]|].
  apply Forall_cons in Hids as [[Hi1 Hi2] Hids].
  destruct (compareId_found file1 file2 i Hi1 Hi2) as (row & Hrow & Hid & Hfirst).
  rewrite Hrow in Hy. injection Hy as <-.
  destruct (IH Hids) as [IH1 IH2].
  change (omap id (Some row :: pushed)) with (row :: omap id pushed).
  split; [cbn [map]; by rewrite Hid, IH1|by constructor].
Qed.

Lemma comparison_run file1 file2 rest :
  ∃ c,
    comparison (file1 :: file2 :: rest) = Returns (Some c) ∧
    file1Name c = name file1 ∧ file2Name c = name file2 ∧
    map cmp_id (cmp_data c) =
      Lodash.intersection [map row_id (data file1); map row_id (data file2)] ∧
    Forall (row_of_first_matches file1 file2) (cmp_data c) ∧
    differentTexts c = length (filter (λ item, cmp_textsDifferent item = true) (cmp_data c)) ∧
    sameWords c = length (filter (λ item, cmp_wordsMatch item = true) (cmp_data c)).
Proof.
  unfold comparison.
  set (ids := Lodash.intersection [map row_id (data file1); map row_id (data file2)]).
  destruct (mapM_Result_returns (compareId file1 file2) ids) as (pushed & Hp & _).
  { intros i _. apply compareId_returns. }
  rewrite Hp. eexists. split; [reflexivity|]. cbn.
  destruct (pushed_rows file1 file2 ids pushed) as [H1 H2]; [|done|done].
  apply Forall_forall. intros i Hi. by apply intersection_two_elem.
Qed.


Lemma filter_cover {A} (P Q : A → Prop) `{∀ x, Decision (P x)} `{∀ x, Decision (Q x)}
    (l : list A) :
  Forall (λ x, P x ∨ Q x) l →
  (length l <= length (filter P l) + length (filter Q l))%nat.
Proof.
  induction 1 as [|x l Hx _ IH]; [done|].
  destruct (decide (P x)) as [HP|HP], (decide (Q x)) as [HQ|HQ].
  - rewrite (filter_cons_True P), (filter_cons_True Q) by done. simpl. lia.
  - rewrite (filter_cons_True P), (filter_cons_False Q) by done. simpl. lia.
  - rewrite (filter_cons_False P), (filter_cons_True Q) by done. simpl. lia.
  - by destruct Hx.
Qed.

(** X7. The two counts of a comparison are counts of its rows: neither
    exceeds the number of rows, and together they cover it, since a row
    whose two texts are equal has matching words. *)
Theorem comparison_counts (selectedFiles : list FileData) (c : FileComparison) :
  comparison selectedFiles = Returns (Some c) →
  (differentTexts c <= length (cmp_data c))%nat ∧
  (sameWords c <= length (cmp_data c))%nat ∧
  (length (cmp_data c) <= differentTexts c + sameWords c)%nat ∧
  Forall (λ row, cmp_textsDifferent row = false → cmp_wordsMatch row = true) (cmp_data c).
Proof.
  destruct selectedFiles as [|file1 [|file2 rest]]; [done..|].
  destruct (comparison_run file1 file2 rest) as (c' & -> & _ & _ & _ & Hrows & Hd & Hs).
  intros [= <-]. rewrite Hd, Hs.
  assert (Himp : Forall (λ row, cmp_textsDifferent row = false → cmp_wordsMatch row = true)
                        (cmp_data c')).
  { eapply Forall_impl; [exact Hrows|]. intros row (_ & _ & _ & _ & _ & _ & Hw & Ht) Hsame.
    rewrite Hw. apply wordsMatch_iff_Permutation.
    rewrite Ht in Hsame. unfold textsDifferent in Hsame.
    apply negb_false_iff, bool_decide_eq_true in Hsame. by rewrite Hsame. }
  split_and!; [apply length_filter|apply length_filter| |done].
  apply (filter_cover (λ item, cmp_textsDifferent item = true)
                      (λ item, cmp_wordsMatch item = true)).
  eapply Forall_impl; [exact Himp|]. intros row Hrow. simpl in Hrow.
  destruct (cmp_textsDifferent row); [by left|right; by apply Hrow].
Qed.

Lemma comparison_counts_witness :
  let A := {| name := "A"; data := [ {| row_id := VNum 1; row_text := VStr "the cat sat" |};
                                     {| row_id := VNum 2; row_text := VStr "the dog ran" |} ] |} in
  let B := {| name := "B"; data := [ {| row_id := VNum 1; row_text := VStr "the cat sat" |};
                                     {| row_id := VNum 2; row_text := VStr "ran the dog" |} ] |} in
  ∃ c,
    comparison [A; B] = Returns (Some c) ∧
    (differentTexts c <= length (cmp_data c))%nat ∧
    (sameWords c <= length (cmp_data c))%nat ∧
    (length (cmp_data c) <= differentTexts c + sameWords c)%nat ∧
    Forall (λ row, cmp_textsDifferent row = false → cmp_wordsMatch row = true) (cmp_data c).
Proof.
  intros A B. eexists. split; [reflexivity|].
  exact (comparison_counts [A; B] _ eq_refl).
Defined.

(** ** The scoring of the datasets *)

Section MapMRun.

Context {A B : Type} (f : A → M B) (R : A → B → Prop) (c : A → nat).
Context (T : nat → World → World → Prop) (I : World → Prop).

Hypothesis T_refl : ∀ w, T 0 w w.
Hypothesis T_trans : ∀ a b w w1 w2, T a w w1 → T b w1 w2 → T (a + b) w w2.
Hypothesis I_T : ∀ n w w', I w → T n w w' → I w'.
Hypothesis f_run : ∀ x w, I w → ∃ y w', f x w = (Returns y, w') ∧ R x y ∧ T (c x) w w'.

Lemma mapM_M_run l w :
  I w →
  ∃ ys w', mapM f l w = (Returns ys, w') ∧ Forall2 R l ys ∧ T (sum_list (map c l)) w w'.
Proof.
  revert w. induction l as [|x l IH]; intros w Hw.
  - exists [], w. split_and!; [done|constructor|apply T_refl].
  - destruct (f_run x w Hw) as (y & w1 & Hy & HR & HT).
    destruct (IH w1) as (ys & w2 & Hys & HRs & HTs); [by eapply I_T|].
    exists (y :: ys), w2. split_and!; [|by constructor|].
    + simpl. unfold mbind, M_bind at 1. rewrite Hy.
      unfold M_bind at 1. by rewrite Hys.
    + change (sum_list (map c (x :: l))) with (c x + sum_list (map c l))%nat.
      by eapply T_trans.
Qed.

End MapMRun.

Lemma scored_refl r w : scored r 0 w w.
Proof. unfold scored. split_and!; [done..|destruct r; lia|]. intros _. split; [done|lia]. Qed.

Lemma scored_trans r a b w w1 w2 :
  scored r a w w1 → scored r b w1 w2 → scored r (a + b) w w2.
Proof.
  intros (Hb1 & Hr1 & Hq1 & Hl1) (Hb2 & Hr2 & Hq2 & Hl2). unfold scored.
  split_and!; [congruence|congruence|destruct r; lia|].
  intros Hr. destruct (Hl1 Hr) as [Ht1 Hd1], (Hl2 Hr) as [Ht2 Hd2].
  split; [congruence|lia].
Qed.

Lemma fell_back_refl w : fell_back 0 w w.
Proof. unfold fell_back. simpl. rewrite app_nil_r. split_and!; [done..|lia|lia|done]. Qed.

Lemma fell_back_trans a b w w1 w2 :
  fell_back a w w1 → fell_back b w1 w2 → fell_back (a + b) w w2.
Proof.
  intros (Hb1 & Hr1 & Hq1 & Hd1 & Ht1) (Hb2 & Hr2 & Hq2 & Hd2 & Ht2). unfold fell_back.
  split_and!; [congruence|congruence|lia|lia|].
  rewrite Ht2, Ht1, <- app_assoc. f_equal.
  by rewrite replicate_add, concat_app.
Qed.

Lemma scoreRow_scored r h row w :
  ∃ s w',
    scoreRow r h row w = (Returns s, w') ∧
    (score_id s = row_id row ∧ textOf row = Returns (score_text s)) ∧
    scored r 1 w w'.
Proof.
  unfold scoreRow, mbind, M_bind, lift.
  destruct (textOf_returns row) as [text Ht]. rewrite Ht.
  destruct (calculatePerplexity_effects text r h w) as (p & w' & Hp & Hq & Hd & Hb & Hr).
  rewrite Hp. eexists _, _. split; [reflexivity|]. split; [done|].
  unfold scored. split_and!; [done|done|destruct r; lia|].
  intros ->. rewrite calculatePerplexity_local, dummyPerplexity_run in Hp.
  injection Hp as _ <-. simpl. split; [done|lia].
Qed.

Lemma scoreFile_scored r h file w :
  ∃ report w',
    scoreFile r h file w = (Returns report, w') ∧
    report_of file report ∧
    scored r (length (data file)) w w'.
Proof.
  destruct (mapM_M_run (scoreRow r h)
              (λ row s, score_id s = row_id row ∧ textOf row = Returns (score_text s))
              (λ _, 1%nat) (scored r) (λ _, True)
              (scored_refl r) (scored_trans r) (λ _ _ _ _ _, I)
              (λ row w _, scoreRow_scored r h row w) (data file) w I)
    as (ss & w' & Hss & HR & HT).
  unfold scoreFile. unfold mbind at 1. unfold M_bind at 1. rewrite Hss.
  eexists _, _. split; [reflexivity|]. split.
  - unfold report_of. simpl. split_and!; [done| | |done|done].
    + clear Hss HT. induction HR as [|row s rows ss' [Hid _] _ IH]; [done|].
      simpl. by rewrite Hid, IH.
    + eapply Forall2_impl; [exact HR|]. by intros ?? [_ ?].
  - replace (length (data file)) with (sum_list (map (λ _ : Row, 1%nat) (data file))); [done|].
    clear. induction (data file) as [|? ? IH]; [done|].
    change (sum_list (map (λ _ : Row, 1%nat) (a :: l)))
      with (1 + sum_list (map (λ _ : Row, 1%nat) l))%nat.
    rewrite IH. reflexivity.
Qed.


Lemma dummy_in_local_range text u :
  (0 <= u)%Q → (u < 1)%Q →
  in_local_range (Some (5 + 25 * (1 - entropy text) * u)%Q).
Proof.
  intros Hu0 Hu1. eexists. split; [reflexivity|].
  destruct (entropy_bounds text) as [He0 He1]. split; nra.
Qed.

Lemma scoreRow_fell_back row w :
  backend_down w ∧ random_ok w →
  ∃ s w',
    scoreRow true true row w = (Returns s, w') ∧
    in_local_range (perplexity s) ∧
    fell_back 1 w w'.
Proof.
  intros [Hdown Hok]. unfold scoreRow, mbind, M_bind, lift.
  destruct (textOf_returns row) as [text ->].
  rewrite (calculatePerplexity_remote_caught text true w (Hdown _ _)).
  eexists _, _. split; [reflexivity|]. split.
  - simpl. apply dummy_in_local_range; apply Hok.
  - unfold fell_back. simpl. split_and!; [done|done|lia|lia|].
    by rewrite <- app_assoc.
Qed.

Lemma fell_back_keeps n w w' :
  backend_down w ∧ random_ok w → fell_back n w w' → backend_down w' ∧ random_ok w'.
Proof.
  intros [Hdown Hok] (Hb & Hr & _). unfold backend_down, random_ok.
  rewrite Hb, Hr. by split.
Qed.

Lemma scoreFile_fell_back file w :
  backend_down w ∧ random_ok w →
  ∃ report w',
    scoreFile true true file w = (Returns report, w') ∧
    Forall (λ s, in_local_range (perplexity s)) (scores report) ∧
    fell_back (length (data file)) w w'.
Proof.
  intros Hw.
  destruct (mapM_M_run (scoreRow true true)
              (λ _ s, in_local_range (perplexity s))
              (λ _, 1%nat) fell_back (λ w, backend_down w ∧ random_ok w)
              fell_back_refl fell_back_trans fell_back_keeps
              scoreRow_fell_back (data file) w Hw)
    as (ss & w' & Hss & HR & HT).
  unfold scoreFile. unfold mbind at 1. unfold M_bind at 1. rewrite Hss.
  eexists _, _. split; [reflexivity|]. split.
  - simpl. clear Hss HT. induction HR; by constructor.
  - replace (length (data file)) with (sum_list (map (λ _ : Row, 1%nat) (data file))); [done|].
    clear. induction (data file) as [|? ? IH]; [done|].
    change (sum_list (map (λ _ : Row, 1%nat) (a :: l)))
      with (1 + sum_list (map (λ _ : Row, 1%nat) l))%nat.
    rewrite IH. reflexivity.
Qed.

(** X9. When the backend fails every request inside the [try] block (it
    rejects, answers with a non-2xx status, or its body is not JSON or is
    [null]) and the draws are in [0, 1), every record is still scored:
    every score is a number of the local heuristic, in [5, 30) (in exact
    arithmetic).  Each record costs one request, one draw, one log entry
    and one call of the callback: the remote strategy is not given up
    after the first failure. *)
Theorem perplexityScores_backend_down
    (selectedFiles : list FileData) (w : World) :
  backend_down w → random_ok w →
  ∃ reports w',
    perplexityScores true true selectedFiles w = (Returns reports, w') ∧
    Forall (λ report, Forall (λ s, in_local_range (perplexity s)) (scores report)) reports ∧
    fell_back (totalRows selectedFiles) w w'.
Proof.
  intros Hdown Hok.
  destruct (mapM_M_run (scoreFile true true)
              (λ _ report, Forall (λ s, in_local_range (perplexity s)) (scores report))
              (λ file, length (data file)) fell_back (λ w, backend_down w ∧ random_ok w)
              fell_back_refl fell_back_trans fell_back_keeps
              scoreFile_fell_back selectedFiles w (conj Hdown Hok))
    as (reports & w' & Hrun & HR & HT).
  exists reports, w'. split_and!; [done| |done].
  clear Hrun HT. induction HR; by constructor.
Qed.

Lemma perplexityScores_backend_down_witness :
  let A := {| name := "A"; data := [ {| row_id := VNum 1; row_text := VStr "the cat sat" |};
                                     {| row_id := VNum 2; row_text := VStr "a a b" |} ] |} in
  backend_down (offline (1 # 2)) ∧ random_ok (offline (1 # 2)) ∧
  ∃ reports w',
    perplexityScores true true [A] (offline (1 # 2)) = (Returns reports, w') ∧
    Forall (λ report, Forall (λ s, in_local_range (perplexity s)) (scores report)) reports ∧
    fell_back (totalRows [A]) (offline (1 # 2)) w'.
Proof.
  intros A.
  assert (Hdown : backend_down (offline (1 # 2))) by (by intros ??).
  assert (Hok : random_ok (offline (1 # 2))) by (by apply offline_random_ok).
  split; [exact Hdown|]. split; [exact Hok|].
  exact (perplexityScores_backend_down [A] (offline (1 # 2)) Hdown Hok).
Defined.

(** ** The result of an analysis *)

Lemma analyzeFiles_returned files r h w result w' :
  analyzeFiles files r h w = (Returns result, w') →
  ∃ stats c reports ids,
    fileStats files = Returns stats ∧
    comparison files = Returns c ∧
    perplexityScores r h files w = (Returns reports, w') ∧
    allIds files = Returns ids ∧
    result = {| r_fileStats := stats;
                r_comparison := c;
                r_commonIds := length (Lodash.intersection ids);
                r_totalUniqueIds := length (Lodash.union ids);
                r_perplexityScores := reports;
                r_bestTexts := bestTexts reports |}.
Proof.
  destruct (analyzeFiles_run files r h w)
    as (stats & c & reports & w1 & Hstats & Hc & Hps & ->).
  destruct (allIds files) as [ids|e] eqn:Hids; [|done].
  intros [= <- <-]. by exists stats, c, reports, ids.
Qed.

Lemma fileStats_names files stats :
  fileStats files = Returns stats →
  map stats_name stats = map name files ∧
  map rowCount stats = map (λ file, length (data file)) files.
Proof.
  intros H%mapM_Result_Forall2.
  induction H as [|file s files' stats' Hs _ [IH1 IH2]]; [done|].
  unfold fileStat in Hs. destruct (textLengths file) as [lens|e]; [|done].
  injection Hs as <-. simpl. by rewrite IH1, IH2.
Qed.

Lemma comparison_None files c :
  comparison files = Returns c → c = None ↔ (length files < 2)%nat.
Proof.
  destruct files as [|file1 [|file2 rest]].
  - intros [= <-]. split; [simpl; lia|done].
  - intros [= <-]. split; [simpl; lia|done].
  - destruct (comparison_run file1 file2 rest) as (c' & -> & _).
    intros [= <-]. split; [done|simpl; lia].
Qed.

(** X10. The parts of a returned analysis are aligned with the selection:
    the statistics and the score reports have one entry per selected
    dataset, in the order of the selection, under the dataset's name; the
    recorded row count is the number of records; the best texts are
    computed from the very reports of the result; and the comparison is
    absent exactly when fewer than two datasets are selected. *)
Theorem analyzeFiles_result_aligned
    (selectedFiles : list FileData) (useRemoteApi onApiError : bool)
    (w w' : World) (result : AnalysisResult) :
  analyzeFiles selectedFiles useRemoteApi onApiError w = (Returns result, w') →
  map stats_name (r_fileStats result) = map name selectedFiles ∧
  map rowCount (r_fileStats result) = map (λ file, length (data file)) selectedFiles ∧
  Forall2 report_of selectedFiles (r_perplexityScores result) ∧
  r_bestTexts result = bestTexts (r_perplexityScores result) ∧
  (r_comparison result = None ↔ (length selectedFiles < 2)%nat).
Proof.
  intros (stats & c & reports & ids & Hstats & Hc & Hps & Hids & ->)%analyzeFiles_returned.
  simpl. destruct (fileStats_names _ _ Hstats) as [Hn Hr].
  split_and!; [done|done| |done|by apply comparison_None].
  destruct (mapM_M_run (scoreFile useRemoteApi onApiError) report_of
              (λ file, length (data file)) (scored useRemoteApi) (λ _, True)
              (scored_refl _) (scored_trans _) (λ _ _ _ _ _, I)
              (λ file w _, scoreFile_scored useRemoteApi onApiError file w)
              selectedFiles w I) as (reports' & w'' & Hps' & HR & _).
  unfold perplexityScores in Hps. rewrite Hps in Hps'. by injection Hps' as <- <-.
Qed.

Lemma analyzeFiles_result_aligned_witness :
  let A := {| name := "A"; data := [ {| row_id := VNum 1; row_text := VStr "the cat sat" |};
                                     {| row_id := VNum 2; row_text := VStr "a a b" |} ] |} in
  let B := {| name := "B"; data := [ {| row_id := VNum 2; row_text := VStr "b a a" |} ] |} in
  ∃ result w',
    analyzeFiles [A; B] false true (offline (1 # 2)) = (Returns result, w') ∧
    map stats_name (r_fileStats result) = map name [A; B] ∧
    map rowCount (r_fileStats result) = map (λ file, length (data file)) [A; B] ∧
    Forall2 report_of [A; B] (r_perplexityScores result) ∧
    r_bestTexts result = bestTexts (r_perplexityScores result) ∧
    (r_comparison result = None ↔ (length [A; B] < 2)%nat).
Proof.
  intros A B. eexists _, _. split; [reflexivity|].
  exact (analyzeFiles_result_aligned [A; B] false true (offline (1 # 2)) _ _ eq_refl).
Defined.


(** ** The id counts of an analysis *)

Section IdCounts.

Context {K : Type} {K_eq : EqDecision K} {K_countable : Countable K}.







End IdCounts.





(** ** The ids of the best texts *)

Lemma omap_keys (f : value → option BestText) (ids : list value) :
  (∀ j b, f j = Some b → best_id b = j) →
  map best_id (omap f ids) = filter (λ j, is_Some (f j)) ids.
Proof.
  intros Hkey. induction ids as [|j ids IH]; [done|].
  change (omap f (j :: ids)) with (match f j with Some b => b :: omap f ids | None => omap f ids end).
  destruct (f j) as [b|] eqn:Eb.
  - rewrite filter_cons_True by (rewrite Eb; by eauto).
    simpl. by rewrite (Hkey _ _ Eb), IH.
  - rewrite filter_cons_False; [done|]. rewrite Eb. by intros [? ?].
Qed.

(** X13. For reports whose scores are numbers or [undefined]: the best
    texts are listed by id in the order in which the ids first appear
    among the scores of the reports (report by report, record by record),
    without a repeated id; every entry is a score of one of the reports,
    under that report's name, and its score is a number; and an id is
    listed exactly when one of the scores recorded for it is a number: an
    id all of whose scores are [undefined] has no entry. *)
Theorem bestTexts_ids (perplexityScores : list PerplexityScore) :
  let best := bestTexts perplexityScores in
  sublist (map best_id best)
    (Lodash.uniq (concat (map (λ report, map score_id (scores report)) perplexityScores))) ∧
  NoDup (map best_id best) ∧
  Forall (λ b, is_Some (best_perplexity b) ∧
               ∃ report score, report ∈ perplexityScores ∧ score ∈ scores report ∧
                 b = withSource report score) best ∧
  ∀ i, i ∈ map best_id best ↔
       ∃ report score, report ∈ perplexityScores ∧ score ∈ scores report ∧
         score_id score = i ∧ is_Some (perplexity score).
Proof.
  intros best. set (all := allScores perplexityScores).
  assert (Hkey : ∀ j b, bestFor all j = Some b → best_id b = j).
  { intros j b Hb. by apply bestFor_spec in Hb as [? _]. }
  assert (Hids : map best_id best = filter (λ j, is_Some (bestFor all j))
                                      (Lodash.uniq (map best_id all))).
  { by apply omap_keys. }
  assert (Hfrom : ∀ j b, bestFor all j = Some b →
            best_id b = j ∧ is_Some (best_perplexity b) ∧
            ∃ report score, report ∈ perplexityScores ∧ score ∈ scores report ∧
              b = withSource report score).
  { intros j b Hb.
    destruct (bestFor_spec _ _ _ Hb) as (Hj & m & pre & post & Hm & Hsplit & _).
    split_and!; [done|by rewrite Hm|].
    apply allScores_elem. fold all. rewrite Hsplit, elem_of_app, elem_of_cons. by auto. }
  split_and!.
  - rewrite Hids. unfold all. rewrite allScores_ids. apply sublist_filter.
  - rewrite Hids. apply NoDup_filter, uniq_NoDup.
  - apply Forall_forall. intros b Hb. unfold best, bestTexts in Hb.
    apply list_elem_of_omap in Hb as (j & _ & Hb).
    by destruct (Hfrom j b Hb) as (_ & ? & ?).
  - intros i. rewrite Hids, list_elem_of_filter, uniq_elem, list_elem_of_fmap. split.
    + intros [[b Hb] _]. destruct (Hfrom i b Hb) as (Hi & Hsome & report & score & Hr & Hs & ->).
      by exists report, score.
    + intros (report & score & Hr & Hs & Hi & [q Hq]).
      assert (Hin : withSource report score ∈ all).
      { apply allScores_elem. by exists report, score. }
      split; [by eapply bestFor_is_Some|]. by exists (withSource report score).
Qed.

(** ** The total of a histogram *)

(** X14. A histogram counts no score twice and never counts an
    [undefined] score: the buckets are disjoint, so the counts sum to at
    most the number of scores that are not [undefined]. *)
Theorem distribution_total (perplexityValues : list (option Q)) :
  (totalCount (distribution perplexityValues) <=
     length (filter is_Some perplexityValues))%nat ∧
  (totalCount (distribution perplexityValues) <= length perplexityValues)%nat.
Proof.
  assert (Htotal : (totalCount (distribution perplexityValues) <=
                      length (filter is_Some perplexityValues))%nat).
  { pose proof (distribution_length perplexityValues) as Hlen.
    case_decide as Heq.
    - apply nil_length_inv in Hlen. rewrite Hlen. unfold totalCount. simpl. lia.
    - by rewrite distribution_counts_every_score. }
  split; [exact Htotal|].
  etrans; [exact Htotal|]. apply length_filter.
Qed.

(** ** The route in front of the Python API *)

Lemma POST_cases (request : request_body) (python : value → python_outcome) :
  (∃ text, request = ReqData text ∧ truthy text = false ∧
     POST request python =
       (Returns {| res_json := ErrorJson "Text is required"; res_status := 400 |}, [])) ∨
  (∃ text status p,
     request = ReqData text ∧ truthy text = true ∧
     python text = PyResponse status (JsonData p) ∧ status_ok status = true ∧
     POST request python =
       (Returns {| res_json := PerplexityJson p; res_status := 200 |}, [PythonCalled text])) ∨
  (∃ msg,
     (∀ text, request ≠ ReqData text) ∧
     POST request python =
       (Returns {| res_json := ErrorJson msg; res_status := 500 |}, [ErrorLogged])) ∨
  (∃ text msg,
     request = ReqData text ∧ truthy text = true ∧
     (∀ status p, python text = PyResponse status (JsonData p) → status_ok status = false) ∧
     POST request python =
       (Returns {| res_json := ErrorJson msg; res_status := 500 |},
        [PythonCalled text; ErrorLogged])).
Proof.
  destruct request as [| |text].
  - right. right. left. eexists. split; [done|reflexivity].
  - right. right. left. eexists. split; [done|reflexivity].
  - unfold POST, fetch_python, request_json, body_text. cbn.
    destruct (truthy text) eqn:Ht;
      [|left; exists text; split_and!; [done..|reflexivity]].
    destruct (python text) as [msg|status payload] eqn:Hp.
    { right. right. right. eexists text, _. split_and!; [done|done|congruence|reflexivity]. }
    unfold mbind, W_bind. cbn. destruct (status_ok status) eqn:Hs; cbn.
    + destruct payload as [| |p].
      * right. right. right. eexists text, _. split_and!; [done|done|congruence|reflexivity].
      * right. right. right. eexists text, _. split_and!; [done|done|congruence|reflexivity].
      * right. left. by exists text, status, p.
    + right. right. right. eexists text, _. split_and!; [done|done| |reflexivity].
      intros ?? ?. congruence.
Qed.

(** X15. The route handler always answers and never throws; its status is
    400, 200 or 500.  It answers 400 exactly when the body is JSON other
    than [null] whose [text] is falsy (absent, empty, 0, false, null); 200
    exactly when the text is truthy and the Python API answers with a 2xx
    status and a JSON body other than [null], and then it passes that
    body's [perplexity] field on (an absent field gives an empty object);
    and 500 with an error message in every other case. *)
Theorem POST_answers (request : request_body) (python : value → python_outcome) :
  ∃ response log,
    POST request python = (Returns response, log) ∧
    (res_status response = 400 ∨ res_status response = 200 ∨ res_status response = 500)%nat ∧
    (res_status response = 400%nat ↔ ∃ text, request = ReqData text ∧ truthy text = false) ∧
    (res_status response = 200%nat ↔
       ∃ text status p, request = ReqData text ∧ truthy text = true ∧
         python text = PyResponse status (JsonData p) ∧ status_ok status = true) ∧
    (res_status response = 200%nat →
       ∃ text status p, request = ReqData text ∧
         python text = PyResponse status (JsonData p) ∧
         res_json response = PerplexityJson p) ∧
    (res_status response ≠ 200%nat → ∃ msg, res_json response = ErrorJson msg).
Proof.
  destruct (POST_cases request python)
    as [(text & -> & Ht & ->)
       |[(text & status & p & -> & Ht & Hp & Hs & ->)
        |[(msg & Hno & ->)
         |(text & msg & -> & Ht & Hbad & ->)]]];
    eexists _, _; (split; [reflexivity|]); simpl.
  - split_and!; [by left| | |done|by eauto].
    + split; [by eauto|done].
    + split; [done|]. intros (t & ? & ? & [= <-] & ? & _). congruence.
  - split_and!; [by right; left| | |by eauto 10|done].
    + split; [done|]. intros (t & [= <-] & ?). congruence.
    + split; [by eauto 10|done].
  - split_and!; [by right; right| | |done|by eauto].
    + split; [done|]. intros (t & Ht & _). by destruct (Hno t).
    + split; [done|]. intros (t & ? & ? & Ht & _). by destruct (Hno t).
  - split_and!; [by right; right| | |done|by eauto].
    + split; [done|]. intros (t & [= <-] & Hf). congruence.
    + split; [done|]. intros (t & status & p & [= <-] & _ & Hp & Hs).
      specialize (Hbad _ _ Hp). congruence.
Qed.

(** X16. The route handler calls the Python API at most once, with the
    text of the request, and only when that text is truthy: a request it
    answers with 400 never reaches the Python API. It logs an error
    exactly when it answers 500. *)
Theorem POST_python_calls (request : request_body) (python : value → python_outcome) :
  ∃ response log,
    POST request python = (Returns response, log) ∧
    python_calls log =
      match request with
      | ReqData text => if truthy text then [text] else []
      | _ => []
      end ∧
    (res_status response = 400%nat → log = []) ∧
    (ErrorLogged ∈ log ↔ res_status response = 500%nat).
Proof.
  destruct (POST_cases request python)
    as [(text & -> & Ht & ->)
       |[(text & status & p & -> & Ht & Hp & Hs & ->)
        |[(msg & Hno & ->)
         |(text & msg & -> & Ht & Hbad & ->)]]];
    eexists _, _; (split; [reflexivity|]); simpl.
  - rewrite Ht. split_and!; [done..|]. split; [by intros ?%elem_of_nil|done].
  - rewrite Ht. split_and!; [done..|].
    split; [|done]. by intros [=]%list_elem_of_singleton.
  - split_and!; [|done|split; [done|intros _; left]].
    destruct request as [| |text]; [done..|]. by destruct (Hno text).
  - rewrite Ht. split_and!; [done..|]. split; [done|]. intros _. right. left.
Qed.

(** ** The client behind the route *)




(** ** The selection of the upload tab *)

(** X18. Toggling a file flips whether its id is selected and nothing
    else: the other ids stay selected or not as they were, in their
    order, a selection without repetition stays so, the uploaded files
    and the other fields of the state are untouched, and toggling an
    unselected id twice restores the state. *)
Theorem toggleFileSelection_flips (fileId : string) (st : AppState) :
  let st' := toggleFileSelection fileId st in
  (fileId ∈ selectedFileIds st' ↔ fileId ∉ selectedFileIds st) ∧
  (∀ id, id ≠ fileId → id ∈ selectedFileIds st' ↔ id ∈ selectedFileIds st) ∧
  filter (λ id, id ≠ fileId) (selectedFileIds st') =
    filter (λ id, id ≠ fileId) (selectedFileIds st) ∧
  (NoDup (selectedFileIds st) → NoDup (selectedFileIds st')) ∧
  (fileId ∉ selectedFileIds st → toggleFileSelection fileId st' = st) ∧
  setSelectedFileIds (selectedFileIds st) st' = st.
Proof.
  intros st'. unfold st', toggleFileSelection. destruct st as [fs sel t r l e u]. simpl.
  destruct (decide (fileId ∈ sel)) as [Hin|Hin]; simpl.
  - split_and!; [| | | |done|done].
    + rewrite list_elem_of_filter. split; [by intros [? _]|done].
    + intros id Hne. rewrite list_elem_of_filter. split; [by intros [_ ?]|done].
    + rewrite list_filter_filter. apply list_filter_iff. intros id. simpl. tauto.
    + apply NoDup_filter.
  - split_and!.
    + rewrite elem_of_app, list_elem_of_singleton. split; [done|by auto].
    + intros id Hne. rewrite elem_of_app, list_elem_of_singleton. split; [by intros [?|?]|by auto].
    + rewrite filter_app. rewrite filter_cons_False by (by intros ?).
      by rewrite filter_nil, app_nil_r.
    + intros Hnd. apply NoDup_app. split_and!; [done| |apply NoDup_singleton].
      intros id Hid ->%list_elem_of_singleton. done.
    + intros _. unfold setSelectedFileIds. simpl.
      rewrite decide_True by (apply elem_of_app; right; left).
      f_equal. rewrite filter_app, filter_cons_False by (by intros ?).
      rewrite filter_nil, app_nil_r.
      clear -Hin. induction sel as [|x sel IH]; [done|].
      apply not_elem_of_cons in Hin as [Hne Hin].
      rewrite filter_cons_True by done. f_equal. by apply IH.
    + done.
Qed.

Lemma selectedFiles_filter (fs : list UploadedFile) (sel : list string) (fileId : string)
    (t : tab) (r : option AnalysisResult) (l : bool) (e : option string) (u : bool) :
  selectedFiles {| files := filter (λ file, file_id file ≠ fileId) fs;
                   selectedFileIds := filter (λ id, id ≠ fileId) sel;
                   activeTab := t; analysisResult := r; loading := l; error := e;
                   useRemoteApi := u |} =
  filter (λ file, file_id file ≠ fileId)
    (selectedFiles {| files := fs; selectedFileIds := sel; activeTab := t;
                      analysisResult := r; loading := l; error := e; useRemoteApi := u |}).
Proof.
  unfold selectedFiles. simpl. rewrite !list_filter_filter.
  apply list_filter_iff. intros file. simpl. rewrite list_elem_of_filter. tauto.
Qed.

(** X19. Removing a file leaves no uploaded file with that id and
    unselects the id; the other files and selected ids are kept, in their
    order; a selection that names only uploaded files still does; and the
    files that an analysis would read are those it read before, without
    the removed one. *)
Theorem removeFile_removes (fileId : string) (st : AppState) :
  let st' := removeFile fileId st in
  (fileId ∉ map file_id (files st')) ∧
  (fileId ∉ selectedFileIds st') ∧
  (∀ file, file ∈ files st' ↔ file ∈ files st ∧ file_id file ≠ fileId) ∧
  sublist (files st') (files st) ∧
  (∀ id, id ∈ selectedFileIds st' ↔ id ∈ selectedFileIds st ∧ id ≠ fileId) ∧
  sublist (selectedFileIds st') (selectedFileIds st) ∧
  (selection_ok st → selection_ok st') ∧
  selectedFiles st' = filter (λ file, file_id file ≠ fileId) (selectedFiles st).
Proof.
  intros st'. unfold st', removeFile. destruct st as [fs sel t r l e u].
  unfold setSelectedFileIds, setFiles, selection_ok. simpl.
  split_and!.
  - intros (file & Hid & [Hne _]%list_elem_of_filter)%list_elem_of_fmap. by rewrite Hid in Hne.
  - by intros [Hne _]%list_elem_of_filter.
  - intros file. rewrite list_elem_of_filter. tauto.
  - apply sublist_filter.
  - intros id. rewrite list_elem_of_filter. tauto.
  - apply sublist_filter.
  - intros Hok id [Hne Hid]%list_elem_of_filter.
    apply Hok, list_elem_of_fmap in Hid as (file & -> & Hfile).
    apply list_elem_of_fmap. exists file. split; [done|]. by apply list_elem_of_filter.
  - apply selectedFiles_filter.
Qed.

(** ** Running an analysis from the upload tab *)













(** ** Uploading files *)

Lemma mapM_id_cases {A} (rs : list (Result A)) :
  (Forall (λ r, ∃ a, r = Returns a) rs ∧
   ∃ xs, mapM id rs = Returns xs ∧ rs = map Returns xs) ∨
  (Exists (λ r, ∃ e, r = Throws e) rs ∧ ∃ e, mapM id rs = Throws e ∧ Throws e ∈ rs).
Proof.
  induction rs as [|[a|e] rs IH].
  - left. split; [constructor|]. by exists [].
  - destruct IH as [[Hall (xs & Hxs & ->)]|[Hex (e & He & Hin)]].
    + left. split; [constructor; by eauto|]. exists (a :: xs). simpl in *. by rewrite Hxs.
    + right. split; [by right|]. exists e. simpl in *. rewrite He. split; [done|by right].
  - right. split; [left; by eauto|]. exists e. split; [done|left].
Qed.

(** X22. An upload is all or nothing.  If the processing of every chosen
    file resolves, the resolved files (those that are not [null]) are
    appended to the uploaded files, in the order in which they were
    chosen, and no error is shown; if the processing of one of them
    rejects, no file is added, not even those that resolved, and an error
    message is shown.  Either way loading ends, and the selection, the
    stored result, the tab and the strategy are untouched: uploading a
    file does not select it.  With no file chosen nothing changes. *)
Theorem handleFileUpload_all_or_nothing
    (processed : list (Result (option UploadedFile))) (st : AppState) :
  let st' := handleFileUpload processed st in
  (processed = [] → st' = st) ∧
  (processed ≠ [] → loading st' = false) ∧
  (Forall (λ r, ∃ file, r = Returns file) processed → processed ≠ [] →
     files st' = files st ++ resolved processed ∧ error st' = None) ∧
  (Exists (λ r, ∃ e, r = Throws e) processed →
     files st' = files st ∧ ∃ msg, error st' = Some msg) ∧
  selectedFileIds st' = selectedFileIds st ∧ analysisResult st' = analysisResult st ∧
  activeTab st' = activeTab st ∧ useRemoteApi st' = useRemoteApi st.
Proof.
  cbv zeta. unfold handleFileUpload.
  destruct processed as [|r rs]; [split_and!; by try done; intros ?%Exists_nil|].
  cbv beta iota zeta. assert (Hne : r :: rs ≠ []) by done.
  revert Hne. generalize (r :: rs). clear r rs. intros processed Hne.
  destruct (mapM_id_cases processed) as [[Hall (xs & -> & ->)]|[Hex (e & -> & _)]].
  - split_and!; [done|done| |intros Hex|done..].
    + intros _ _. split; [|done]. simpl. f_equal. unfold resolved. clear.
      induction xs as [|[file|] xs IH]; [done| |exact IH].
      change (file :: omap id xs = file :: omap
        (λ r, match r with Returns (Some file) => Some file | _ => None end)
        (map Returns xs)).
      f_equal. exact IH.
    + exfalso. apply Exists_exists in Hex as (x & Hin & e & ->).
      rewrite Forall_forall in Hall. by destruct (Hall _ Hin).
  - split_and!; [done|done| |by eauto|done..].
    intros Hall _. exfalso. apply Exists_exists in Hex as (x & Hin & e' & ->).
    rewrite Forall_forall in Hall. by destruct (Hall _ Hin).
Qed.

(** ** The legends of the charts *)

Lemma string_length_app (s1 s2 : string) :
  String.length (s1 +:+ s2) = (String.length s1 + String.length s2)%nat.
Proof. induction s1 as [|c s1 IH]; simpl; by rewrite ?IH. Qed.

Lemma substring_prefix_length (n : nat) (s : string) :
  String.length (String.substring 0 n s) = Nat.min n (String.length s).
Proof.
  revert n. induction s as [|c s IH]; intros [|n]; simpl; try done. by rewrite IH.
Qed.

Lemma substring_prefix_all (n : nat) (s : string) :
  (String.length s <= n)%nat → String.substring 0 n s = s.
Proof.
  revert n. induction s as [|c s IH]; intros [|n]; simpl; try done; [lia|].
  intros Hle. rewrite IH; [done|lia].
Qed.

(** X23. The legend of a file in a chart is never longer than [n + 3]
    characters: a name of at most [n] characters is shown as it is, and a
    longer one as its first [n] characters followed by three dots. *)
Theorem chartName_length (n : nat) (name : string) :
  (String.length (chartName n name) <= n + 3)%nat ∧
  ((String.length name <= n)%nat → chartName n name = name) ∧
  ((n < String.length name)%nat →
     chartName n name = String.substring 0 n name +:+ "..." ∧
     String.length (chartName n name) = (n + 3)%nat).
Proof.
  unfold chartName. destruct (n <? String.length name)%nat eqn:Hlt.
  - apply Nat.ltb_lt in Hlt.
    rewrite string_length_app, substring_prefix_length. simpl.
    split_and!; [lia|lia|]. intros _. split; [done|lia].
  - apply Nat.ltb_ge in Hlt.
    rewrite substring_prefix_all by done.
    assert (Happ : name +:+ "" = name).
    { clear. induction name as [|c s IH]; [done|].
      change (String c (s +:+ "") = String c s). by rewrite IH. }
    rewrite Happ. split_and!; [lia|done|lia].
Qed.

(** ** The average score of a dataset *)

Lemma baseSum_local_range (l : list (option Q)) :
  Forall in_local_range l →
  ∀ acc, ∃ s,
    foldl (λ result current,
             match current, result with
             | None, _ => result
             | Some c, None => Some c
             | Some c, Some r => Some (r + c)%Q
             end) (Some acc) l = Some s ∧
    (acc + 5 * num_of_nat (length l) <= s)%Q ∧
    (s <= acc + 30 * num_of_nat (length l))%Q.
Proof.
  induction 1 as [|p l (q & -> & Hq5 & Hq30) _ IH]; intros acc.
  - exists acc. split; [done|].
    change (num_of_nat (length (@nil (option Q)))) with 0%Q. split; lra.
  - destruct (IH (acc + q)%Q) as (s & Hs & Hlo & Hhi). exists s. split; [exact Hs|].
    assert (Hlen : (num_of_nat (length (Some q :: l)) == num_of_nat (length l) + 1)%Q).
    { unfold num_of_nat. cbn [length]. rewrite Nat2Z.inj_succ, <- Z.add_1_r, inject_Z_plus.
      reflexivity. }
    rewrite Hlen. split; lra.
Qed.

Lemma mean_local_range (l : list (option Q)) :
  l ≠ [] → Forall in_local_range l →
  ∃ q, Lodash.mean l = Num q ∧ (5 <= q)%Q ∧ (q < 30)%Q.
Proof.
  destruct l as [|p l]; [done|]. intros _ Hall.
  apply Forall_cons in Hall as [(q0 & -> & Hq5 & Hq30) Hall].
  unfold Lodash.mean, Lodash.baseSum. cbn [foldl].
  destruct (baseSum_local_range l Hall q0) as (s & -> & Hlo & Hhi).
  eexists. split; [reflexivity|].
  assert (Hlen : (num_of_nat (length (Some q0 :: l)) == num_of_nat (length l) + 1)%Q).
  { unfold num_of_nat. cbn [length]. rewrite Nat2Z.inj_succ, <- Z.add_1_r, inject_Z_plus.
    reflexivity. }
  assert (Hn : (0 <= num_of_nat (length l))%Q).
  { unfold num_of_nat. change 0%Q with (inject_Z 0). rewrite <- Zle_Qle. lia. }
  rewrite Hlen. split.
  - apply Qle_shift_div_l; [lra|]. lra.
  - apply Qlt_shift_div_r; [lra|]. lra.
Qed.

Lemma scoreRow_local_range h row w :
  random_ok w →
  ∃ s w',
    scoreRow false h row w = (Returns s, w') ∧
    in_local_range (perplexity s) ∧
    scored false 1 w w'.
Proof.
  intros Hok. unfold scoreRow, mbind, M_bind, lift.
  destruct (textOf_returns row) as [text ->].
  rewrite calculatePerplexity_local, dummyPerplexity_run.
  eexists _, _. split; [reflexivity|]. split.
  - simpl. apply dummy_in_local_range; apply Hok.
  - unfold scored. simpl. split_and!; [done|done|lia|]. intros _. split; [done|lia].
Qed.

Lemma scored_keeps_random r n w w' : random_ok w → scored r n w w' → random_ok w'.
Proof. intros Hok (_ & Hr & _). unfold random_ok. by rewrite Hr. Qed.

(** X24. Under the local strategy, with draws in [0, 1), every score of a
    dataset is a number in [5, 30) and so is the average of a dataset with
    at least one record (in exact arithmetic); the average of a dataset
    without a record is [NaN]. *)
Theorem scoreFile_local_average (onApiError : bool) (file : FileData) (w : World) :
  random_ok w →
  ∃ report w',
    scoreFile false onApiError file w = (Returns report, w') ∧
    Forall (λ s, in_local_range (perplexity s)) (scores report) ∧
    (data file = [] → avgPerplexity report = NaN) ∧
    (data file ≠ [] →
       ∃ q, avgPerplexity report = Num q ∧ (5 <= q)%Q ∧ (q < 30)%Q).
Proof.
  intros Hok.
  destruct (mapM_M_run (scoreRow false onApiError)
              (λ _ s, in_local_range (perplexity s))
              (λ _, 1%nat) (scored false) random_ok
              (scored_refl false) (scored_trans false) (scored_keeps_random false)
              (scoreRow_local_range onApiError) (data file) w Hok)
    as (ss & w' & Hss & HR & _).
  unfold scoreFile. unfold mbind at 1. unfold M_bind at 1. rewrite Hss.
  eexists _, _. split; [reflexivity|]. simpl.
  assert (Hall : Forall (λ s, in_local_range (perplexity s)) ss).
  { clear Hss. induction HR; by constructor. }
  split_and!; [done| |].
  - intros Hnil. rewrite Hnil in HR. apply Forall2_nil_inv_l in HR. by rewrite HR.
  - intros Hne. apply mean_local_range.
    + intros Hnil%fmap_nil_inv. rewrite Hnil in HR. apply Forall2_nil_inv_r in HR. done.
    + by apply Forall_fmap.
Qed.

Lemma scoreFile_local_average_witness :
  let A := {| name := "A"; data := [ {| row_id := VNum 1; row_text := VStr "the cat sat" |};
                                     {| row_id := VNum 2; row_text := VStr "a a b" |} ] |} in
  random_ok (offline (1 # 2)) ∧
  ∃ report w',
    scoreFile false true A (offline (1 # 2)) = (Returns report, w') ∧
    Forall (λ s, in_local_range (perplexity s)) (scores report) ∧
    (data A = [] → avgPerplexity report = NaN) ∧
    (data A ≠ [] →
       ∃ q, avgPerplexity report = Num q ∧ (5 <= q)%Q ∧ (q < 30)%Q).
Proof.
  intros A.
  assert (Hok : random_ok (offline (1 # 2))) by (by apply offline_random_ok).
  split; [exact Hok|].
  exact (scoreFile_local_average true A (offline (1 # 2)) Hok).
Defined.
